(** * go-ipc: open-mode negotiation, memory-region helpers, layout
      validation and message-queue checks, embedded in Rocq.

    Go values are embedded as follows.
    - [int], [int64], [uintptr] are 64-bit; they are carried as [Z] and
      the wrap-around of the arithmetic is written out ([int64]).  The
      bit operators [&] and [|] are [Z.land] and [Z.lor], which agree
      with the machine operators on two's complement numbers.
    - a Go [error] is [option error], [None] being [nil].
    - a [(T, error)] result is [result T].
    - a closure with side effects ([opener]) is a state-passing function.
    - a run-time panic is [None] in an [option] result. *)

From Stdlib Require Import ZArith List Lia Bool String.
From coqutil Require Import Byte Word.LittleEndianList.
Import ListNotations.
Local Open Scope Z_scope.

Scheme All for list.

(** ** Errors and results *)

Inductive error : Type :=
| Errorf (msg : string)      (* fmt.Errorf / errors.New *)
| Errno (code : Z)           (* an error of the operating system *)
| EOF                        (* io.EOF *)
| UnsupportedLayout          (* the layout validator's rejection *)
| BufferTooSmall             (* the transcoder's size error *)
| AlreadySubscribed.         (* a second notification request *)

Inductive result (A : Type) : Type :=
| Ok (a : A)
| Err (e : error).
Arguments Ok {A} a.
Arguments Err {A} e.

Definition isOk {A} (r : result A) : bool :=
  match r with Ok _ => true | Err _ => false end.

(** [os.IsExist] and [os.IsNotExist] of Go's standard library: both are
    false on [nil]; the first holds of EEXIST and ENOTEMPTY, the second
    of ENOENT. *)
Definition EEXIST : Z := 17.
Definition ENOENT : Z := 2.
Definition ENOTEMPTY : Z := 39.
Definition EACCES : Z := 13.

Definition os_IsExist (err : option error) : bool :=
  match err with
  | Some (Errno c) => (c =? EEXIST) || (c =? ENOTEMPTY)
  | _ => false
  end.

Definition os_IsNotExist (err : option error) : bool :=
  match err with
  | Some (Errno c) => c =? ENOENT
  | _ => false
  end.

(** 64-bit two's complement wrap-around. *)
Definition int64 (z : Z) : Z := (z + 2 ^ 63) mod 2 ^ 64 - 2 ^ 63.

Definition len {A} (l : list A) : Z := Z.of_nat (List.length l).

(** ** Open-mode negotiation (common.go) *)

(** The portable flags [O_*] are declared in a file of the package that
    is not among the sources at hand; they are taken as parameters. *)
Class OpenFlags : Type := {
  O_OPEN_OR_CREATE : Z;
  O_CREATE_ONLY : Z;
  O_OPEN_ONLY : Z;
  O_READ_ONLY : Z;
  O_WRITE_ONLY : Z;
  O_READWRITE : Z
}.

(** The flags of Go's [os] package depend on the platform. *)
Class OsFlags : Type := {
  os_O_RDONLY : Z;
  os_O_WRONLY : Z;
  os_O_RDWR : Z;
  os_O_CREATE : Z;
  os_O_EXCL : Z;
  os_O_TRUNC : Z
}.

(** One bit per portable flag, in the order of declaration. *)
Definition bit_flags : OpenFlags :=
  {| O_OPEN_OR_CREATE := 1; O_CREATE_ONLY := 2; O_OPEN_ONLY := 4;
     O_READ_ONLY := 8; O_WRITE_ONLY := 16; O_READWRITE := 32 |}.

(** The values of package [syscall] on linux. *)
Definition linux_flags : OsFlags :=
  {| os_O_RDONLY := 0; os_O_WRONLY := 1; os_O_RDWR := 2;
     os_O_CREATE := 64; os_O_EXCL := 128; os_O_TRUNC := 512 |}.

(** [mode&f != 0] *)
Definition has (mode f : Z) : bool := negb (Z.land mode f =? 0).

(** How many of the flags [fs] are set in [mode]. *)
Definition countSet (mode : Z) (fs : list Z) : nat :=
  List.length (filter (has mode) fs).

Section Negotiator.
Context {F : OpenFlags} {OS : OsFlags}.

Definition accessModeToOsMode (mode : Z) : result Z :=
  let osMode := 0 in
  if has mode O_READ_ONLY then
    if has mode (Z.lor O_WRITE_ONLY O_READWRITE) then
      Err (Errorf "incompatible open flags")
    else Ok (Z.lor osMode os_O_RDONLY)
  else if has mode O_WRITE_ONLY then
    if has mode O_READWRITE then
      Err (Errorf "incompatible open flags")
    else Ok (Z.lor osMode os_O_WRONLY)
  else if has mode O_READWRITE then
    Ok (Z.lor osMode os_O_RDWR)
  else Err (Errorf "no access mode flags").

Definition createModeToOsMode (mode : Z) : result Z :=
  if has mode O_OPEN_OR_CREATE then
    if has mode (Z.lor O_CREATE_ONLY O_OPEN_ONLY) then
      Err (Errorf "incompatible open flags")
    else Ok (Z.lor os_O_CREATE os_O_TRUNC)
  else if has mode O_CREATE_ONLY then
    if has mode O_OPEN_ONLY then
      Err (Errorf "incompatible open flags")
    else Ok (Z.lor os_O_CREATE os_O_EXCL)
  else if has mode O_OPEN_ONLY then
    Ok 0
  else Err (Errorf "no create mode flags").

Definition openModeToOsMode (mode : Z) : result Z :=
  match createModeToOsMode mode with
  | Err e => Err e
  | Ok createMode =>
    match accessModeToOsMode mode with
    | Err e => Err e
    | Ok accessMode => Ok (Z.lor createMode accessMode)
    end
  end.

(** The opener is a closure that performs a system call: it maps the
    world before the call to its error and the world after it. *)
Section Opener.
Context {World : Type}.
Variable opener : Z -> World -> option error * World.

Definition attempts : nat := 16.

(** The [for] loop of the [O_OPEN_OR_CREATE] case; [left] is
    [attempts - attempt], [err] the current value of the variable
    [err]. *)
Fixpoint retryLoop (left : nat) (amode : Z) (err : option error)
    (w : World) : bool * option error * World :=
  match left with
  | O => (false, err, w)
  | S left' =>
    let (err1, w1) :=
      opener (Z.lor (Z.lor amode os_O_CREATE) os_O_EXCL) w in
    if negb (os_IsExist err1) then (true, err1, w1)
    else
      let (err2, w2) := opener amode w1 in
      if negb (os_IsNotExist err2) then (false, err2, w2)
      else retryLoop left' amode err2 w2
  end.

Definition openOrCreateFile (mode : Z) (w : World)
    : bool * option error * World :=
  if has mode (Z.lor O_OPEN_ONLY O_CREATE_ONLY) then
    match openModeToOsMode mode with
    | Err e => (false, Some e, w)
    | Ok osMode =>
      match opener osMode w with
      | (None, w1) => (has mode O_CREATE_ONLY, None, w1)
      | (Some e, w1) => (false, Some e, w1)
      end
    end
  else if has mode O_OPEN_OR_CREATE then
    match accessModeToOsMode mode with
    | Ok amode => retryLoop attempts amode None w
    | Err e => (false, Some e, w)
    end
  else (false, Some (Errorf "unknown open mode"), w).
End Opener.

(** *** Observing the calls of the opener *)

(** One call of the opener: the flags it received and its answer. *)
Definition call : Type := Z * option error.

(** The opener that also logs its calls, oldest first. *)
Definition logged {World} (opener : Z -> World -> option error * World)
    (m : Z) (wl : World * list call) : option error * (World * list call) :=
  let (e, w') := opener m (fst wl) in (e, (w', snd wl ++ [(m, e)])).

(** A call asks for exclusive creation when it carries both
    [os.O_CREATE] and [os.O_EXCL]. *)
Definition createExcl (m : Z) : bool :=
  let ce := Z.lor os_O_CREATE os_O_EXCL in Z.land m ce =? ce.

Definition isNil (e : option error) : bool :=
  match e with None => true | Some _ => false end.

(** This call created the object: one of its exclusive creations
    succeeded. *)
Definition created (log : list call) : bool :=
  existsb (fun c => createExcl (fst c) && isNil (snd c)) log.

(** The access flags of the platform do not ask for creation. *)
Definition access_plain : Prop :=
  createExcl os_O_RDONLY = false /\
  createExcl os_O_WRONLY = false /\
  createExcl os_O_RDWR = false.

(** The retry protocol in the words of the specification, as a
    relation between the attempts that are left, the calls made, and
    the outcome. *)
Inductive protocol (amode : Z) : nat -> option error -> list call ->
    bool -> option error -> Prop :=
| P_exhausted last :
    protocol amode 0 last [] false last
| P_create n last e1 :
    os_IsExist e1 = false ->
    protocol amode (S n) last
      [(Z.lor (Z.lor amode os_O_CREATE) os_O_EXCL, e1)] true e1
| P_open n last e1 e2 :
    os_IsExist e1 = true ->
    os_IsNotExist e2 = false ->
    protocol amode (S n) last
      [(Z.lor (Z.lor amode os_O_CREATE) os_O_EXCL, e1); (amode, e2)]
      false e2
| P_retry n last e1 e2 log b e :
    os_IsExist e1 = true ->
    os_IsNotExist e2 = true ->
    protocol amode n e2 log b e ->
    protocol amode (S n) last
      ((Z.lor (Z.lor amode os_O_CREATE) os_O_EXCL, e1) :: (amode, e2) :: log)
      b e.
End Negotiator.

(** ** Memory regions (memory_region.go) *)

(** [data[lo:]]: panics unless [0 <= lo <= len(data)]. *)
Definition slice_from {A} (l : list A) (lo : Z) : option (list A) :=
  if (0 <=? lo) && (lo <=? len l) then Some (skipn (Z.to_nat lo) l) else None.

(** [p[:hi]]: panics unless [0 <= hi <= len(p)] (the capacity of [p] is
    taken to be its length). *)
Definition slice_to {A} (l : list A) (hi : Z) : option (list A) :=
  if (0 <=? hi) && (hi <=? len l) then Some (firstn (Z.to_nat hi) l) else None.

(** The builtin [copy(dst, src)]: the contents of [dst] afterwards. *)
Definition copy {A} (dst src : list A) : list A :=
  let k := Nat.min (List.length dst) (List.length src) in
  firstn k src ++ skipn k dst.

(** [WriteAt], on the bytes [data] of the region: the count [n], the
    error and the bytes of the region afterwards; [None] is a panic. *)
Definition WriteAt (data p : list byte) (off : Z)
    : option (Z * option error * list byte) :=
  let n := int64 (len data - int64 off) in
  let eof (n : Z) := if n <? len p then Some EOF else None in
  if 0 <? n then
    let n := if len p <? n then len p else n in
    match slice_from data off, slice_to p n with
    | Some dst, Some src =>
      Some (n, eof n, firstn (Z.to_nat off) data ++ copy dst src)
    | _, _ => None
    end
  else Some (n, eof n, data).

(** [mmapOffsetMultiple] is defined per platform, in files that are not
    among the sources at hand; its value is a parameter. *)
Class Platform : Type := { mmapOffsetMultiple : Z }.

(** Integer division of Go truncates toward zero and panics on a zero
    divisor. *)
Definition calcMmapOffsetFixup {P : Platform} (offset : Z) : option Z :=
  let pageSize := mmapOffsetMultiple in
  if pageSize =? 0 then None
  else Some (int64 (offset - int64 (int64 (Z.quot offset pageSize) * pageSize))).

(** A [Mappable]: its methods [Fd] and [Name], and the method [Stat] of
    the optional interface [fileInfoGetter] ([None] when the object does
    not implement it); [Stat] answers the size of the file or an error. *)
Record Mappable : Type := {
  Fd : Z;
  Name : string;
  Stat : option (result Z)
}.

(** [^uintptr(0)] *)
Definition invalidFd : Z := 2 ^ 64 - 1.

Definition fileSizeFromFd (f : Mappable) : result Z :=
  if Fd f =? invalidFd then Ok 0
  else match Stat f with
       | Some (Err e) => Err e
       | Some (Ok sz) => Ok sz
       | None => Ok 0
       end.

Definition checkMmapSize (f : Mappable) (size : Z) : result Z :=
  if size =? 0 then
    if Fd f =? invalidFd then
      Err (Errorf "must provide a valid file size")
    else match fileSizeFromFd f with
         | Ok sz => Ok (int64 sz)
         | Err e => Err e
         end
  else Ok size.

(** The size an object reports: it has a valid handle, implements
    [Stat], and [Stat] succeeds. *)
Definition reportedSize (f : Mappable) : option Z :=
  if Fd f =? invalidFd then None
  else match Stat f with
       | Some (Ok sz) => Some sz
       | _ => None
       end.

(** ** Message-queue permissions *)

(** [uint(perm)&0111 == 0]; [0111] is octal. *)
Definition checkMqPerm (perm : Z) : bool :=
  Z.land (perm mod 2 ^ 64) 73 =? 0.

(** The execute bits of a permission mask: others (bit 0), group
    (bit 3) and owner (bit 6). *)
Definition executeBits (perm : Z) : list bool :=
  [Z.testbit perm 0; Z.testbit perm 3; Z.testbit perm 6].

(** ** Layout validation and raw transcoding *)

(** The numeric kinds of Go; floats and complex numbers are carried by
    their bit patterns. *)
Inductive Kind : Type :=
| Int8 | Int16 | Int32 | Int64 | Int
| Uint8 | Uint16 | Uint32 | Uint64 | Uint | Uintptr
| Float32 | Float64 | Complex64 | Complex128.

Inductive GoType : Type :=
| TNum (k : Kind)
| TArray (n : nat) (elem : GoType)
| TStruct (fields : list GoType)
| TOpaque (name : string)
| TPtr (elem : GoType)
| TSlice (elem : GoType)
| TString
| TMap (key val : GoType)
| TInterface.

(** The opaque fixed-layout types that are let through, with their size
    and alignment in bytes. *)
Definition opaqueLayout (name : string) : option (nat * nat) :=
  if String.eqb name "sync.Mutex" then Some (8, 4)%nat else None.

Definition whitelisted (name : string) : bool :=
  match opaqueLayout name with Some _ => true | None => false end.

(** The first error of a list of checks. *)
Fixpoint firstError (checks : list (option error)) : option error :=
  match checks with
  | [] => None
  | None :: checks' => firstError checks'
  | Some e :: _ => Some e
  end.

(** Modelled from the spec: [checkObject] and its helpers are not among
    the sources, only their test [TestCheckObjectType] is.  The accepted
    and rejected shapes are those of section 4.3 of the specification;
    the test settles the one case in which a slice is let through, a
    slice passed as the object itself ([checkObject(arr[:])] gives no
    error, while [[][]int], [[]string] and a struct with a slice field
    are errors), so the validator carries the nesting depth. *)
Fixpoint checkType (t : GoType) (depth : nat) : option error :=
  match t with
  | TNum _ => None
  | TArray _ elem => checkType elem (S depth)
  | TSlice elem =>
    match depth with
    | O => checkType elem 1
    | S _ => Some UnsupportedLayout
    end
  | TStruct fields =>
    firstError (map (fun f => checkType f (S depth)) fields)
  | TOpaque name => if whitelisted name then None else Some UnsupportedLayout
  | TPtr _ | TString | TMap _ _ | TInterface => Some UnsupportedLayout
  end.

Definition checkObject (t : GoType) : option error := checkType t 0.

(** [u] occurs in [t], at any depth. *)
Inductive occurs (u : GoType) : GoType -> Prop :=
| occ_here : occurs u u
| occ_array n e : occurs u e -> occurs u (TArray n e)
| occ_struct fs f : In f fs -> occurs u f -> occurs u (TStruct fs)
| occ_ptr e : occurs u e -> occurs u (TPtr e)
| occ_slice e : occurs u e -> occurs u (TSlice e)
| occ_key k v : occurs u k -> occurs u (TMap k v)
| occ_val k v : occurs u v -> occurs u (TMap k v).

(** The shapes a flat value is made of. *)
Definition flatShape (u : GoType) : bool :=
  match u with
  | TNum _ | TArray _ _ | TStruct _ => true
  | TOpaque name => whitelisted name
  | TPtr _ | TSlice _ | TString | TMap _ _ | TInterface => false
  end.

(** Pointers, text, maps and interfaces. *)
Definition indirect (u : GoType) : bool :=
  match u with
  | TPtr _ | TString | TMap _ _ | TInterface => true
  | _ => false
  end.

(** A flat type: only flat shapes occur in it. *)
Definition flat (t : GoType) : Prop :=
  forall u, occurs u t -> flatShape u = true.

(** The immediate components of an array, a struct or a slice. *)
Definition component (c t : GoType) : Prop :=
  match t with
  | TArray _ e | TSlice e => c = e
  | TStruct fs => In c fs
  | _ => False
  end.

(** Flat values.  A number carries its kind; an array the type of its
    elements; an opaque value its raw bytes. *)
Inductive Value : Type :=
| VNum (k : Kind) (z : Z)
| VArray (elem : GoType) (vs : list Value)
| VStruct (vs : list Value)
| VOpaque (name : string) (raw : list byte).

Fixpoint typeOf (v : Value) : GoType :=
  match v with
  | VNum k _ => TNum k
  | VArray elem vs => TArray (List.length vs) elem
  | VStruct vs => TStruct (map typeOf vs)
  | VOpaque name _ => TOpaque name
  end.

(** Size in bytes of a numeric kind (64-bit platform). *)
Definition ksize (k : Kind) : nat :=
  match k with
  | Int8 | Uint8 => 1
  | Int16 | Uint16 => 2
  | Int32 | Uint32 | Float32 => 4
  | Int64 | Uint64 | Int | Uint | Uintptr | Float64 | Complex64 => 8
  | Complex128 => 16
  end.

Definition kalign (k : Kind) : nat :=
  match k with
  | Complex64 => 4
  | Complex128 => 8
  | _ => ksize k
  end.

Definition ksigned (k : Kind) : bool :=
  match k with
  | Int8 | Int16 | Int32 | Int64 | Int => true
  | _ => false
  end.

(** The values a kind holds. *)
Definition inRange (k : Kind) (z : Z) : Prop :=
  let half := 2 ^ (8 * Z.of_nat (ksize k) - 1) in
  if ksigned k then - half <= z < half else 0 <= z < 2 * half.

(** Bytes of padding that bring the offset [off] to a multiple of [a]. *)
Definition padTo (off a : nat) : nat := ((a - off mod a) mod a)%nat.

(** The end of a struct whose fields, given by alignment and size, are
    laid out from offset [off] on; [a] is the alignment of the struct. *)
Fixpoint layoutEnd (a off : nat) (fields : list (nat * nat)) : nat :=
  match fields with
  | [] => off + padTo off a
  | (al, sz) :: fields' => layoutEnd a (off + padTo off al + sz) fields'
  end.

Fixpoint alignof (t : GoType) : nat :=
  match t with
  | TNum k => kalign k
  | TArray _ elem => alignof elem
  | TStruct fields => fold_right Nat.max 1%nat (map alignof fields)
  | TOpaque name =>
    match opaqueLayout name with Some (_, a) => a | None => 1%nat end
  | TPtr _ | TSlice _ | TString | TMap _ _ | TInterface => 8%nat
  end.

Fixpoint sizeof (t : GoType) : nat :=
  match t with
  | TNum k => ksize k
  | TArray n elem => n * sizeof elem
  | TStruct fields =>
    layoutEnd (fold_right Nat.max 1%nat (map alignof fields)) 0
      (map (fun f => (alignof f, sizeof f)) fields)
  | TOpaque name =>
    match opaqueLayout name with Some (sz, _) => sz | None => 0 end
  | TPtr _ | TMap _ _ => 8
  | TString | TInterface => 16
  | TSlice _ => 24
  end%nat.

(** The byte length of the memory representation of a flat value. *)
Definition footprint (v : Value) : nat := sizeof (typeOf v).

Definition allTrue (ps : list Prop) : Prop := fold_right and True ps.

(** A well-formed value: numbers in the range of their kind, array
    elements of the element type, opaque values of the declared size. *)
Fixpoint wf (v : Value) : Prop :=
  match v with
  | VNum k z => inRange k z
  | VArray elem vs => allTrue (map (fun v => wf v /\ typeOf v = elem) vs)
  | VStruct vs => allTrue (map wf vs)
  | VOpaque name raw =>
    match opaqueLayout name with
    | Some (sz, _) => List.length raw = sz
    | None => False
    end
  end.

Definition zeros (n : nat) : list byte := repeat Byte.x00 n.

(** The bytes of a struct whose fields, given by alignment, size and
    bytes, are placed from offset [off] on, with zeroed padding. *)
Fixpoint placeFields (a off : nat) (fields : list (nat * nat * list byte))
    : list byte :=
  match fields with
  | [] => zeros (padTo off a)
  | (al, sz, bs) :: fields' =>
    zeros (padTo off al) ++ bs
      ++ placeFields a (off + padTo off al + sz) fields'
  end.

(** The memory representation of a flat value: numbers little-endian,
    array elements one after the other, struct fields at their aligned
    offsets. *)
Fixpoint repr (v : Value) : list byte :=
  match v with
  | VNum k z => le_split (ksize k) z
  | VArray _ vs => List.concat (map repr vs)
  | VStruct vs =>
    placeFields (alignof (TStruct (map typeOf vs))) 0
      (map (fun v => (alignof (typeOf v), sizeof (typeOf v), repr v)) vs)
  | VOpaque _ raw => raw
  end.

(** The first [n] bytes and the rest, when there are that many. *)
Definition take (n : nat) (bs : list byte) : option (list byte * list byte) :=
  if (n <=? List.length bs)%nat then Some (firstn n bs, skipn n bs) else None.

(** The number a bit pattern of kind [k] stands for. *)
Definition interp (k : Kind) (u : Z) : Z :=
  let half := 2 ^ (8 * Z.of_nat (ksize k) - 1) in
  if ksigned k && (half <=? u) then u - 2 * half else u.

(** A reader takes a value off the front of the bytes. *)
Definition reader : Type := list byte -> option (Value * list byte).

(** [n] values in a row. *)
Fixpoint readMany (n : nat) (rd : reader) (bs : list byte)
    : option (list Value * list byte) :=
  match n with
  | O => Some ([], bs)
  | S n' =>
    match rd bs with
    | Some (v, r) =>
      match readMany n' rd r with
      | Some (vs, r') => Some (v :: vs, r')
      | None => None
      end
    | None => None
    end
  end.

(** The fields of a struct, given by alignment, size and reader, from
    offset [off] on. *)
Fixpoint readFields (a off : nat) (fields : list (nat * nat * reader))
    (bs : list byte) : option (list Value * list byte) :=
  match fields with
  | [] =>
    match take (padTo off a) bs with
    | Some (_, r) => Some ([], r)
    | None => None
    end
  | (al, sz, rd) :: fields' =>
    match take (padTo off al) bs with
    | Some (_, r) =>
      match rd r with
      | Some (v, r1) =>
        match readFields a (off + padTo off al + sz) fields' r1 with
        | Some (vs, r2) => Some (v :: vs, r2)
        | None => None
        end
      | None => None
      end
    | None => None
    end
  end.

(** Reading a value of type [t] off the front of [bs]. *)
Fixpoint decode (t : GoType) (bs : list byte) : option (Value * list byte) :=
  match t with
  | TNum k =>
    match take (ksize k) bs with
    | Some (b, rest) => Some (VNum k (interp k (le_combine b)), rest)
    | None => None
    end
  | TArray n elem =>
    match readMany n (decode elem) bs with
    | Some (vs, rest) => Some (VArray elem vs, rest)
    | None => None
    end
  | TStruct fields =>
    match
      readFields (alignof (TStruct fields)) 0
        (map (fun f => (alignof f, sizeof f, decode f)) fields) bs
    with
    | Some (vs, rest) => Some (VStruct vs, rest)
    | None => None
    end
  | TOpaque name =>
    match opaqueLayout name with
    | Some (sz, _) =>
      match take sz bs with
      | Some (b, rest) => Some (VOpaque name b, rest)
      | None => None
      end
    | None => None
    end
  | TPtr _ | TSlice _ | TString | TMap _ _ | TInterface => None
  end.

(** Modelled from the spec: [alloc] is not among the sources, only its
    tests are.  After section 4.3: the value is validated, the call
    fails when the buffer is shorter than the footprint, and otherwise
    the raw bytes of the value are copied to the front of the buffer.
    The result is the buffer afterwards and the error. *)
Definition alloc (data : list byte) (object : Value)
    : list byte * option error :=
  match checkObject (typeOf object) with
  | Some e => (data, Some e)
  | None =>
    if (List.length data <? footprint object)%nat
    then (data, Some BufferTooSmall)
    else (copy data (repr object), None)
  end.

(** Modelled from the spec: reading back is done in the tests through an
    unsafe pointer cast to the expected type.  After section 4.3: the
    caller names the type, the call fails when the buffer is shorter
    than the footprint of that type, and otherwise the value is read off
    the front of the buffer. *)
Definition readFrom (data : list byte) (t : GoType) : result Value :=
  if (List.length data <? sizeof t)%nat then Err BufferTooSmall
  else match decode t data with
       | Some (v, _) => Ok v
       | None => Err UnsupportedLayout
       end.

(** ** Message-queue notification *)

(** Modelled from the spec: the message queue is not among the sources,
    only its test [TestMqNotifyTwice] is.  After sections 3, 4.5 and 9:
    a handle has a single slot for its subscriber, [Notify] fills the
    slot and fails when it is taken, [NotifyCancel] empties it. *)
Record MessageQueue : Type := {
  mqId : Z;
  subscriber : option Z          (* the channel to signal *)
}.

Definition Notify (ch : Z) (mq : MessageQueue) : MessageQueue * option error :=
  match subscriber mq with
  | Some _ => (mq, Some AlreadySubscribed)
  | None => ({| mqId := mqId mq; subscriber := Some ch |}, None)
  end.

Definition NotifyCancel (mq : MessageQueue) : MessageQueue * option error :=
  ({| mqId := mqId mq; subscriber := None |}, None).

(** ** Overwriting part of a region *)

(** The bytes [data] with [src] placed at offset [o]. *)
Definition overwrite (data : list byte) (o : nat) (src : list byte)
    : list byte :=
  firstn o data ++ src ++ skipn (o + List.length src) data.

(** ** An opener without competitors *)

(** The contract of an opener over a name space that nobody else touches
    during the call: [present] tells whether the object exists.  An
    exclusive creation fails with "exists" on an object that is there
    and creates it otherwise; a plain open succeeds on an object that is
    there and fails with "does not exist" otherwise. *)
Section Quiescent.
Context {OS : OsFlags} {World : Type}.
Variable present : World -> bool.
Variable opener : Z -> World -> option error * World.

Record quiet : Prop := {
  create_present : forall m w,
    createExcl m = true -> present w = true ->
    os_IsExist (fst (opener m w)) = true /\
    present (snd (opener m w)) = true;
  create_absent : forall m w,
    createExcl m = true -> present w = false ->
    fst (opener m w) = None /\ present (snd (opener m w)) = true;
  open_present : forall m w,
    createExcl m = false -> present w = true ->
    fst (opener m w) = None /\ present (snd (opener m w)) = true;
  open_absent : forall m w,
    createExcl m = false -> present w = false ->
    os_IsNotExist (fst (opener m w)) = true /\
    present (snd (opener m w)) = false
}.
End Quiescent.

(** The simplest such opener: the world is the presence of the object. *)
Definition fsOpener (m : Z) (present : bool) : option error * bool :=
  if createExcl (OS := linux_flags) m then
    if present then (Some (Errno EEXIST), true) else (None, true)
  else
    if present then (None, true) else (Some (Errno ENOENT), false).

(** ** Sample inputs *)

(** Openers over a trivial world: the object is there already; every
    call succeeds; every call is refused. *)
Definition existingOpener (m : Z) (w : unit) : option error * unit :=
  (if createExcl (OS := linux_flags) m then Some (Errno EEXIST) else None, w).

Definition freshOpener (m : Z) (w : unit) : option error * unit := (None, w).

(** The object is destroyed and created again by others between any two
    calls: creation finds it, opening does not. *)
Definition racingOpener (m : Z) (w : unit) : option error * unit :=
  (if createExcl (OS := linux_flags) m then Some (Errno EEXIST)
   else Some (Errno ENOENT), w).

Definition deniedOpener (m : Z) (w : unit) : option error * unit :=
  (Some (Errno EACCES), w).

(** An object with a valid handle and no [Stat] method. *)
Definition plainObject : Mappable :=
  {| Fd := 3; Name := "plain"; Stat := None |}.

(** A file of 4096 bytes. *)
Definition fileObject : Mappable :=
  {| Fd := 3; Name := "file"; Stat := Some (Ok 4096) |}.

Definition linuxPlatform : Platform := {| mmapOffsetMultiple := 4096 |}.

(** The types of [TestCheckObjectType]. *)
Definition tInt : GoType := TNum Int.
Definition validStruct : GoType :=
  TStruct [tInt; tInt; TNum Uintptr; TStruct [TArray 3 tInt]].
Definition invalidStruct1 : GoType := TStruct [TPtr tInt; TPtr tInt].
Definition invalidStruct2 : GoType := TStruct [TSlice tInt; TSlice tInt].
Definition invalidStruct3 : GoType := TStruct [TString].

(** The object of [TestAllocStruct]: [s{-1, 11, internal{complex(10, 11),
    uintptr(0)}}]; the floats 10 and 11 are 0x4024000000000000 and
    0x4026000000000000. *)
Definition testStruct : Value :=
  VStruct [VNum Int (-1); VNum Int 11;
           VStruct [VNum Complex128
                      (4621819117588971520 + 4622382067542392832 * 2 ^ 64);
                    VNum Uintptr 0]].

(** A queue handle without subscriber. *)
Definition freshQueue : MessageQueue := {| mqId := 3; subscriber := None |}.

(** * Properties *)

(** ** Open-mode negotiation *)

Lemma has_lor mode a b : has mode (Z.lor a b) = has mode a || has mode b.
Proof.
  unfold has. rewrite Z.land_lor_distr_r.
  destruct (Z.eqb_spec (Z.land mode a) 0) as [Ha | Ha];
    destruct (Z.eqb_spec (Z.land mode b) 0) as [Hb | Hb]; simpl;
    destruct (Z.eqb_spec (Z.lor (Z.land mode a) (Z.land mode b)) 0) as [H | H];
    try reflexivity; exfalso.
  - apply H. apply Z.lor_eq_0_iff. auto.
  - apply Z.lor_eq_0_iff in H. tauto.
  - apply Z.lor_eq_0_iff in H. tauto.
  - apply Z.lor_eq_0_iff in H. tauto.
Qed.

Section NegotiatorFacts.
Context {F : OpenFlags} {OS : OsFlags}.

Lemma createModeToOsMode_ok mode :
  isOk (createModeToOsMode mode) = true <->
  countSet mode [O_CREATE_ONLY; O_OPEN_ONLY; O_OPEN_OR_CREATE] = 1%nat.
Proof.
  unfold createModeToOsMode, countSet. rewrite has_lor. simpl.
  destruct (has mode O_OPEN_OR_CREATE), (has mode O_CREATE_ONLY),
    (has mode O_OPEN_ONLY); simpl; split; intro H;
    try reflexivity; discriminate H.
Qed.

Lemma accessModeToOsMode_ok mode :
  isOk (accessModeToOsMode mode) = true <->
  countSet mode [O_READ_ONLY; O_WRITE_ONLY; O_READWRITE] = 1%nat.
Proof.
  unfold accessModeToOsMode, countSet. rewrite has_lor. simpl.
  destruct (has mode O_READ_ONLY), (has mode O_WRITE_ONLY),
    (has mode O_READWRITE); simpl; split; intro H;
    try reflexivity; discriminate H.
Qed.

Lemma isOk_false {A} (r : result A) : isOk r = false -> exists e, r = Err e.
Proof. destruct r as [a | e]; [discriminate | eauto]. Qed.

(** C1. Mode resolution succeeds exactly on the modes that carry one
    create-mode flag and one access-mode flag; on every other mode it
    returns an error. *)
Theorem openModeToOsMode_succeeds_iff mode :
  (isOk (openModeToOsMode mode) = true <->
   countSet mode [O_CREATE_ONLY; O_OPEN_ONLY; O_OPEN_OR_CREATE] = 1%nat /\
   countSet mode [O_READ_ONLY; O_WRITE_ONLY; O_READWRITE] = 1%nat) /\
  (isOk (openModeToOsMode mode) = false ->
   exists e, openModeToOsMode mode = Err e).
Proof.
  split; [| apply isOk_false].
  rewrite <- createModeToOsMode_ok, <- accessModeToOsMode_ok.
  unfold openModeToOsMode.
  destruct (createModeToOsMode mode) as [c | e]; simpl.
  - destruct (accessModeToOsMode mode) as [a | e]; simpl; tauto.
  - split; [discriminate | tauto].
Qed.

Section OpenerFacts.
Context {World : Type}.
Variable opener : Z -> World -> option error * World.

(** The loop driven by the logging opener makes the calls of the
    protocol, and answers what the loop driven by the opener answers. *)
Lemma retryLoop_logged n : forall amode last w log0,
  exists log1,
    retryLoop (logged opener) n amode last (w, log0) =
      (fst (fst (retryLoop opener n amode last w)),
       snd (fst (retryLoop opener n amode last w)),
       (snd (retryLoop opener n amode last w), log0 ++ log1)) /\
    protocol amode n last log1
      (fst (fst (retryLoop opener n amode last w)))
      (snd (fst (retryLoop opener n amode last w))).
Proof.
  induction n as [| n IH]; intros amode last w log0; simpl.
  - exists []. rewrite app_nil_r. split; [reflexivity | constructor].
  - unfold logged at 1. simpl.
    destruct (opener (Z.lor (Z.lor amode os_O_CREATE) os_O_EXCL) w)
      as [e1 w1] eqn:E1.
    destruct (os_IsExist e1) eqn:X1; simpl.
    + unfold logged at 1. simpl.
      destruct (opener amode w1) as [e2 w2] eqn:E2.
      destruct (os_IsNotExist e2) eqn:X2; simpl.
      * destruct (IH amode e2 w2
          ((log0 ++ [(Z.lor (Z.lor amode os_O_CREATE) os_O_EXCL, e1)])
             ++ [(amode, e2)])) as [log1 [Heq Hp]].
        exists ((Z.lor (Z.lor amode os_O_CREATE) os_O_EXCL, e1)
                  :: (amode, e2) :: log1).
        split.
        -- rewrite Heq. rewrite <- !app_assoc. reflexivity.
        -- apply P_retry; assumption.
      * exists [(Z.lor (Z.lor amode os_O_CREATE) os_O_EXCL, e1); (amode, e2)].
        split.
        -- rewrite <- app_assoc. reflexivity.
        -- apply P_open; assumption.
    + exists [(Z.lor (Z.lor amode os_O_CREATE) os_O_EXCL, e1)].
      split; [reflexivity | apply P_create; assumption].
Qed.

End OpenerFacts.

(** What the protocol implies about the calls: there are at most two per
    attempt; the first one asks for exclusive creation; the error that
    is returned is that of the last call; and a run that made all its
    calls answers [false]. *)
Lemma protocol_calls amode n last log b err :
  protocol amode n last log b err ->
  (List.length log <= 2 * n)%nat /\
  (log = [] -> n = 0%nat) /\
  (log <> [] ->
     fst (hd (0, None) log) = Z.lor (Z.lor amode os_O_CREATE) os_O_EXCL /\
     err = snd (List.last log (0, None))) /\
  (List.length log = (2 * n)%nat -> b = false).
Proof.
  induction 1 as [last | n last e1 X1 | n last e1 e2 X1 X2
                 | n last e1 e2 log b e X1 X2 Hp IH].
  - simpl. repeat split; try lia; intros; congruence.
  - simpl. repeat split; try lia; try congruence; intros; lia.
  - simpl. repeat split; try lia; congruence.
  - destruct IH as [Hlen [Hnil [Hne Hall]]].
    simpl. repeat split; try lia; try congruence.
    + destruct log as [| c log'].
      * rewrite (Hnil eq_refl) in Hp. inversion Hp. reflexivity.
      * destruct (Hne ltac:(discriminate)) as [_ He]. exact He.
    + intro Hl. apply Hall. lia.
Qed.

Lemma createExcl_lor_l m :
  createExcl (Z.lor (Z.lor os_O_CREATE os_O_EXCL) m) = true.
Proof.
  unfold createExcl. apply Z.eqb_eq. apply Z.bits_inj'. intros i Hi.
  rewrite Z.land_spec, !Z.lor_spec.
  destruct (Z.testbit os_O_CREATE i), (Z.testbit os_O_EXCL i),
    (Z.testbit m i); reflexivity.
Qed.

Lemma createExcl_request amode :
  createExcl (Z.lor (Z.lor amode os_O_CREATE) os_O_EXCL) = true.
Proof.
  rewrite <- Z.lor_assoc, Z.lor_comm. apply createExcl_lor_l.
Qed.

Lemma accessModeToOsMode_plain mode amode :
  access_plain -> accessModeToOsMode mode = Ok amode ->
  createExcl amode = false.
Proof.
  intros [Hr [Hw Hrw]]. unfold accessModeToOsMode.
  destruct (has mode O_READ_ONLY);
    [destruct (has mode (Z.lor O_WRITE_ONLY O_READWRITE)) |
     destruct (has mode O_WRITE_ONLY);
       [destruct (has mode O_READWRITE) | destruct (has mode O_READWRITE)]];
    intro H; inversion H; subst; rewrite ?Z.lor_0_l; assumption.
Qed.

(** Under the protocol, a run without error answers [true] exactly when
    one of its exclusive creations succeeded. *)
Lemma protocol_created amode n last log b err :
  protocol amode n last log b err ->
  createExcl amode = false -> err = None ->
  (b = true <-> created log = true).
Proof.
  intros Hp Hplain.
  induction Hp as [last | n last e1 X1 | n last e1 e2 X1 X2
                  | n last e1 e2 log b e X1 X2 Hp IH]; intro Hnil.
  - simpl. tauto.
  - subst e1. unfold created. simpl. rewrite createExcl_request. simpl. tauto.
  - subst e2. unfold created. simpl. rewrite Hplain.
    destruct e1; [| discriminate X1]. simpl.
    rewrite andb_false_r. simpl. tauto.
  - specialize (IH Hnil). unfold created in *. simpl. rewrite Hplain.
    destruct e1; [| discriminate X1]. simpl. rewrite andb_false_r. simpl.
    exact IH.
Qed.

Section OpenOrCreate.
Context {World : Type}.
Variable opener : Z -> World -> option error * World.

(** C2, amended. For a mode that carries [O_OPEN_OR_CREATE], neither
    [O_OPEN_ONLY] nor [O_CREATE_ONLY], and a valid access flag,
    [openOrCreateFile] follows the retry protocol: exclusive creation
    first, a plain open when the object exists already, exclusive
    creation again when it exists no more, for at most 16 rounds, the
    error of the last call being the one returned. *)
Theorem openOrCreateFile_retry_protocol mode amode w :
  has mode O_OPEN_OR_CREATE = true ->
  has mode (Z.lor O_OPEN_ONLY O_CREATE_ONLY) = false ->
  accessModeToOsMode mode = Ok amode ->
  exists b err w' log,
    openOrCreateFile (logged opener) mode (w, []) = (b, err, (w', log)) /\
    openOrCreateFile opener mode w = (b, err, w') /\
    protocol amode 16 None log b err /\
    (1 <= List.length log <= 32)%nat /\
    fst (hd (0, None) log) = Z.lor (Z.lor amode os_O_CREATE) os_O_EXCL /\
    err = snd (List.last log (0, None)) /\
    (List.length log = 32%nat -> b = false).
Proof.
  intros Hoc Hno Ham. unfold openOrCreateFile. rewrite Hno, Hoc, Ham.
  destruct (retryLoop_logged opener attempts amode None w [])
    as [log [Heq Hp]].
  destruct (retryLoop opener attempts amode None w) as [[b err] w'].
  simpl in *. exists b, err, w', log.
  destruct (protocol_calls _ _ _ _ _ _ Hp) as [Hlen [Hnil [Hne Hall]]].
  assert (Hlog : log <> []) by (intro H; apply Hnil in H; discriminate H).
  destruct (Hne Hlog) as [Hfst Hlast].
  repeat split; try assumption.
  - destruct log; [congruence | simpl; lia].
Qed.

(** When [openOrCreateFile] returns no error, its boolean is [true]
    exactly when one of the exclusive creations it asked the opener for
    succeeded, that is, when this call created the object. *)
Theorem openOrCreateFile_created_iff mode w b w' log :
  access_plain ->
  openOrCreateFile (logged opener) mode (w, []) = (b, None, (w', log)) ->
  (b = true <-> created log = true).
Proof.
  intros Hplain. unfold openOrCreateFile.
  destruct (has mode (Z.lor O_OPEN_ONLY O_CREATE_ONLY)) eqn:H1.
  - unfold openModeToOsMode, createModeToOsMode.
    rewrite (has_lor mode O_CREATE_ONLY O_OPEN_ONLY).
    rewrite has_lor in H1.
    destruct (accessModeToOsMode mode) as [amode |] eqn:Ham.
    2:{ destruct (has mode O_OPEN_OR_CREATE), (has mode O_CREATE_ONLY),
          (has mode O_OPEN_ONLY); simpl; intro H; discriminate H. }
    pose proof (accessModeToOsMode_plain _ _ Hplain Ham) as Hp.
    destruct (has mode O_OPEN_OR_CREATE), (has mode O_CREATE_ONLY) eqn:Hc,
      (has mode O_OPEN_ONLY) eqn:Ho; simpl; try discriminate;
      unfold logged; simpl.
    + destruct (opener _ w) as [[e |] w1]; intro H; inversion H; subst.
      unfold created. simpl. rewrite createExcl_lor_l. simpl. tauto.
    + destruct (opener _ w) as [[e |] w1]; intro H; inversion H; subst.
      unfold created. simpl. rewrite Hp. simpl. tauto.
  - destruct (has mode O_OPEN_OR_CREATE); [| discriminate].
    destruct (accessModeToOsMode mode) as [amode |] eqn:Ham; [| discriminate].
    destruct (retryLoop_logged opener attempts amode None w [])
      as [log1 [Heq Hp]].
    rewrite Heq. intro H. inversion H. subst log1.
    apply (protocol_created _ _ _ _ _ _ Hp).
    + exact (accessModeToOsMode_plain _ _ Hplain Ham).
    + assumption.
Qed.

End OpenOrCreate.

End NegotiatorFacts.

(** The sample flags satisfy the side condition on the platform. *)
Lemma linux_access_plain : access_plain (OS := linux_flags).
Proof. repeat split. Qed.

Lemma openOrCreateFile_retry_protocol_witness :
  exists b err w' log,
    openOrCreateFile (F := bit_flags) (OS := linux_flags)
      (logged existingOpener) 33 (tt, []) = (b, err, (w', log)) /\
    openOrCreateFile (F := bit_flags) (OS := linux_flags)
      existingOpener 33 tt = (b, err, w') /\
    protocol (OS := linux_flags) 2 16 None log b err /\
    (1 <= List.length log <= 32)%nat /\
    fst (hd (0, None) log) = 194 /\
    err = snd (List.last log (0, None)) /\
    (List.length log = 32%nat -> b = false).
Proof.
  apply (openOrCreateFile_retry_protocol (F := bit_flags) (OS := linux_flags)
           existingOpener 33 2 tt); reflexivity.
Defined.

(** Against an opener that always loses the race, the 16 rounds are
    all used, 32 calls are made, and the last "does not exist" is
    returned. *)
Example openOrCreateFile_exhausted :
  fst (openOrCreateFile (F := bit_flags) (OS := linux_flags)
         (logged racingOpener) 33 (tt, [])) =
    (false, Some (Errno ENOENT)) /\
  List.length
    (snd (snd (openOrCreateFile (F := bit_flags) (OS := linux_flags)
                 (logged racingOpener) 33 (tt, [])))) = 32%nat.
Proof. vm_compute. split; reflexivity. Qed.

(** C2, as stated, fails on a mode that carries [O_OPEN_OR_CREATE] and a
    valid access flag together with [O_OPEN_ONLY]: the opener is never
    called. *)
Lemma openOrCreateFile_retry_protocol_counterexample :
  has 13 (O_OPEN_OR_CREATE (OpenFlags := bit_flags)) = true /\
  accessModeToOsMode (F := bit_flags) (OS := linux_flags) 13 = Ok 0 /\
  openOrCreateFile (F := bit_flags) (OS := linux_flags)
    (logged freshOpener) 13 (tt, []) =
    (false, Some (Errorf "incompatible open flags"), (tt, [])) /\
  ~ protocol (OS := linux_flags) 0 16 None []
      false (Some (Errorf "incompatible open flags")).
Proof.
  repeat split. intro H. inversion H.
Qed.

Lemma openOrCreateFile_created_iff_witness :
  true = true <-> created (OS := linux_flags) [(194, None)] = true.
Proof.
  apply (openOrCreateFile_created_iff (F := bit_flags) (OS := linux_flags)
           freshOpener 34 tt true tt [(194, None)]).
  - repeat split.
  - reflexivity.
Defined.

(** C3. The boolean is meant to tell whether this call created the
    object, and the code breaks that on one path: when the exclusive
    creation of the create-or-open case is refused for another reason
    than "exists", the call returns [true] with the error although
    nothing was created, while the same refusal under [O_CREATE_ONLY]
    returns [false] with the error. *)
Theorem openOrCreateFile_true_without_creation :
  openOrCreateFile (F := bit_flags) (OS := linux_flags)
    (logged deniedOpener) 33 (tt, []) =
    (true, Some (Errno EACCES), (tt, [(194, Some (Errno EACCES))])) /\
  created (OS := linux_flags) [(194, Some (Errno EACCES))] = false /\
  openOrCreateFile (F := bit_flags) (OS := linux_flags)
    (logged deniedOpener) 34 (tt, []) =
    (false, Some (Errno EACCES), (tt, [(194, Some (Errno EACCES))])).
Proof. repeat split. Qed.

(** ** Memory regions *)

Lemma int64_small z : - 2 ^ 63 <= z < 2 ^ 63 -> int64 z = z.
Proof. intro H. unfold int64. rewrite Z.mod_small; lia. Qed.

Lemma len_nonneg {A} (l : list A) : 0 <= len l.
Proof. unfold len. lia. Qed.

Lemma len_app {A} (l1 l2 : list A) : len (l1 ++ l2) = len l1 + len l2.
Proof. unfold len. rewrite length_app. lia. Qed.

(** C8. For a non-negative offset and a positive granularity, the fixup
    is the offset modulo the granularity: it lies in [0, granularity)
    and the offset less the fixup is a multiple of the granularity. *)
Theorem calcMmapOffsetFixup_mod {P : Platform} (offset : Z) :
  0 < mmapOffsetMultiple < 2 ^ 63 ->
  0 <= offset < 2 ^ 63 ->
  exists fixup,
    calcMmapOffsetFixup offset = Some fixup /\
    fixup = offset mod mmapOffsetMultiple /\
    (offset - fixup) mod mmapOffsetMultiple = 0 /\
    0 <= fixup < mmapOffsetMultiple.
Proof.
  intros Hps Hoff. set (ps := mmapOffsetMultiple) in *.
  exists (offset mod ps).
  assert (Hq : 0 <= offset / ps <= offset).
  { split; [apply Z.div_pos; lia |].
    apply Z.div_le_upper_bound; nia. }
  assert (Hm : 0 <= offset mod ps < ps) by (apply Z.mod_pos_bound; lia).
  assert (He : offset = ps * (offset / ps) + offset mod ps)
    by (apply Z.div_mod; lia).
  repeat split; try lia.
  - unfold calcMmapOffsetFixup. fold ps.
    destruct (Z.eqb_spec ps 0) as [E | _]; [lia |].
    rewrite Z.quot_div_nonneg by lia.
    rewrite (int64_small (offset / ps)) by lia.
    rewrite (int64_small (offset / ps * ps)) by nia.
    rewrite int64_small by nia.
    f_equal. lia.
  - replace (offset - offset mod ps) with ((offset / ps) * ps) by lia.
    apply Z_mod_mult.
Qed.

Lemma calcMmapOffsetFixup_mod_witness :
  exists fixup,
    calcMmapOffsetFixup (P := linuxPlatform) 10000 = Some fixup /\
    fixup = 10000 mod 4096 /\
    (10000 - fixup) mod 4096 = 0 /\
    0 <= fixup < 4096.
Proof.
  apply (calcMmapOffsetFixup_mod (P := linuxPlatform) 10000);
    simpl; lia.
Defined.

(** C6, amended. Size resolution fails exactly when the size is zero and
    either the handle is invalid or [Stat] fails; with a zero size, a
    valid handle and a size reported by [Stat] the result is that size;
    with a zero size, a valid handle and no [Stat] method the result is
    zero; a size other than zero is returned as it is. *)
Theorem checkMmapSize_resolves (f : Mappable) (size : Z) :
  (isOk (checkMmapSize f size) = false <->
   size = 0 /\ (Fd f = invalidFd \/ exists e, Stat f = Some (Err e))) /\
  (forall sz, size = 0 -> reportedSize f = Some sz ->
     - 2 ^ 63 <= sz < 2 ^ 63 -> checkMmapSize f size = Ok sz) /\
  (size = 0 -> Fd f <> invalidFd -> Stat f = None ->
     checkMmapSize f size = Ok 0) /\
  (size <> 0 -> checkMmapSize f size = Ok size).
Proof.
  unfold checkMmapSize, fileSizeFromFd, reportedSize.
  destruct (Z.eqb_spec size 0) as [Hs | Hs];
    destruct (Z.eqb_spec (Fd f) invalidFd) as [Hf | Hf];
    destruct (Stat f) as [[sz | e] |]; cbn [isOk];
    (split; [| split; [| split]]);
    try (intros sz' _ Hr Hrange; inversion Hr; subst;
         rewrite int64_small by exact Hrange; reflexivity);
    try (intros; congruence);
    try (intros; reflexivity);
    try (split; [discriminate | intros [? [? | [? ?]]]; congruence]);
    try (split; [intros _ | reflexivity]; split; eauto; congruence).
Qed.

(** C6, as stated, fails on an object with a valid handle that has no
    [Stat] method: it reports no size, the size asked for is zero, and
    the call succeeds with zero. *)
Lemma checkMmapSize_counterexample :
  reportedSize plainObject = None /\
  checkMmapSize plainObject 0 = Ok 0 /\
  ~ (isOk (checkMmapSize plainObject 0) = false <->
     0 = 0 /\ reportedSize plainObject = None).
Proof.
  repeat split. intros [_ H]. discriminate (H (conj eq_refl eq_refl)).
Qed.

Lemma copy_short {A} (dst src : list A) :
  (List.length src <= List.length dst)%nat ->
  copy dst src = src ++ skipn (List.length src) dst.
Proof.
  intro H. unfold copy. rewrite Nat.min_r by exact H.
  rewrite firstn_all. reflexivity.
Qed.

Lemma nth_error_firstn_lt {A} (l : list A) (n i : nat) :
  (i < n)%nat -> nth_error (firstn n l) i = nth_error l i.
Proof.
  intro H. rewrite nth_error_firstn.
  destruct (Nat.ltb_spec i n); [reflexivity | lia].
Qed.

(** C7, amended. For an offset within the region, [0 <= off <= L],
    [WriteAt] copies [n = min(len(p), L - off)] bytes of [p] to the
    offsets [off .. off+n) of the region, leaves every other byte and
    the length of the region as they were, and returns [n] together with
    [io.EOF] exactly when [n < len(p)]. *)
Theorem WriteAt_in_range (data p : list byte) (off : Z) :
  len data < 2 ^ 63 ->
  0 <= off <= len data ->
  let n := Z.min (len p) (len data - off) in
  let data' := firstn (Z.to_nat off) data ++ firstn (Z.to_nat n) p
                 ++ skipn (Z.to_nat (off + n)) data in
  WriteAt data p off =
    Some (n, (if n <? len p then Some EOF else None), data') /\
  len data' = len data /\
  (forall i, (i < Z.to_nat n)%nat ->
     nth_error data' (Z.to_nat off + i) = nth_error p i) /\
  (forall j, (j < Z.to_nat off \/ Z.to_nat (off + n) <= j)%nat ->
     nth_error data' j = nth_error data j).
Proof.
  intros HL Hoff n data'.
  pose proof (len_nonneg p) as Hp.
  assert (Hn : 0 <= n <= len data - off) by (unfold n; lia).
  assert (Hnp : n <= len p) by (unfold n; lia).
  assert (Hlo : List.length (firstn (Z.to_nat off) data) = Z.to_nat off).
  { rewrite length_firstn. unfold len in *. lia. }
  assert (Hmid : List.length (firstn (Z.to_nat n) p) = Z.to_nat n).
  { rewrite length_firstn. unfold len in *. lia. }
  repeat split.
  - unfold WriteAt.
    rewrite (int64_small off) by lia.
    rewrite (int64_small (len data - off)) by lia.
    destruct (Z.ltb_spec 0 (len data - off)) as [Hpos | Hzero].
    + replace (if len p <? len data - off then len p else len data - off)
        with n by (unfold n; destruct (Z.ltb_spec (len p) (len data - off)); lia).
      unfold slice_from, slice_to.
      replace ((0 <=? off) && (off <=? len data)) with true
        by (symmetry; apply andb_true_iff; split; apply Z.leb_le; lia).
      replace ((0 <=? n) && (n <=? len p)) with true
        by (symmetry; apply andb_true_iff; split; apply Z.leb_le; lia).
      rewrite copy_short
        by (rewrite Hmid, length_skipn; unfold len in *; lia).
      rewrite Hmid, skipn_skipn.
      replace (Z.to_nat n + Z.to_nat off)%nat with (Z.to_nat (off + n)) by lia.
      reflexivity.
    + assert (off = len data) by lia. assert (n = 0) by lia.
      unfold data'. replace (off + n) with (len data) by lia.
      subst off. rewrite H0. simpl.
      unfold len. rewrite Nat2Z.id, firstn_all, skipn_all, app_nil_r.
      replace (Z.of_nat (List.length data) - Z.of_nat (List.length data))
        with 0 by lia.
      reflexivity.
  - unfold data'. rewrite !len_app. unfold len.
    rewrite Hlo, Hmid, length_skipn. unfold len in *. lia.
  - intros i Hi. unfold data'.
    rewrite nth_error_app2 by lia. rewrite Hlo.
    replace (Z.to_nat off + i - Z.to_nat off)%nat with i by lia.
    rewrite nth_error_app1 by lia.
    apply nth_error_firstn_lt. exact Hi.
  - intros j [Hj | Hj]; unfold data'.
    + rewrite nth_error_app1 by lia. apply nth_error_firstn_lt. exact Hj.
    + rewrite nth_error_app2 by lia. rewrite Hlo.
      rewrite nth_error_app2 by lia. rewrite Hmid.
      rewrite nth_error_skipn. f_equal. lia.
Qed.

(** X10. Beyond the end of the region nothing is written; the count that is
    returned is the negative distance to the end. *)
Lemma WriteAt_beyond (data p : list byte) (off : Z) :
  len data < off < 2 ^ 63 ->
  WriteAt data p off = Some (len data - off, Some EOF, data).
Proof.
  intro H. pose proof (len_nonneg data) as Hd. pose proof (len_nonneg p) as Hp.
  unfold WriteAt.
  rewrite (int64_small off) by lia.
  rewrite (int64_small (len data - off)) by lia.
  destruct (Z.ltb_spec 0 (len data - off)); [lia |].
  destruct (Z.ltb_spec (len data - off) (len p)); [reflexivity | lia].
Qed.

(** X11. Before the start of the region the slice expression panics. *)
Lemma WriteAt_negative (data p : list byte) (off : Z) :
  - 2 ^ 63 <= off < 0 -> len data - off < 2 ^ 63 ->
  WriteAt data p off = None.
Proof.
  intros H HL. pose proof (len_nonneg data) as Hd.
  unfold WriteAt.
  rewrite (int64_small off) by lia.
  rewrite (int64_small (len data - off)) by lia.
  destruct (Z.ltb_spec 0 (len data - off)); [| lia].
  unfold slice_from. destruct (Z.leb_spec 0 off); [lia | reflexivity].
Qed.

Lemma WriteAt_in_range_witness :
  WriteAt [Byte.x00; Byte.x00; Byte.x00; Byte.x00]
          [Byte.x01; Byte.x02; Byte.x03] 2 =
    Some (2, Some EOF, [Byte.x00; Byte.x00; Byte.x01; Byte.x02]).
Proof.
  apply (WriteAt_in_range [Byte.x00; Byte.x00; Byte.x00; Byte.x00]
           [Byte.x01; Byte.x02; Byte.x03] 2);
    unfold len; simpl; lia.
Defined.

(** C7, as stated, fails on a negative offset: the slice expression
    [data[off:]] panics, so that no count and no error are returned. *)
Lemma WriteAt_counterexample :
  WriteAt [Byte.x00; Byte.x00] [Byte.x01] (-1) = None /\
  ~ (exists n err data',
       WriteAt [Byte.x00; Byte.x00] [Byte.x01] (-1) = Some (n, err, data')).
Proof.
  split; [reflexivity |]. intros [n [err [data' H]]]. discriminate H.
Qed.

(** ** Message-queue permissions *)

Lemma testbit_73 i :
  0 <= i -> Z.testbit 73 i = (i =? 0) || (i =? 3) || (i =? 6).
Proof.
  intro Hi. destruct (Z.ltb_spec i 7) as [Hlt | Hge].
  - assert (Hc : i = 0 \/ i = 1 \/ i = 2 \/ i = 3 \/ i = 4 \/ i = 5 \/ i = 6)
      by lia.
    destruct Hc as [-> | [-> | [-> | [-> | [-> | [-> | ->]]]]]]; reflexivity.
  - rewrite Z.bits_above_log2 by (simpl; lia).
    symmetry. repeat (apply orb_false_intro); apply Z.eqb_neq; lia.
Qed.

(** C10. A permission mask is accepted exactly when it carries none of
    the three execute bits. *)
Theorem checkMqPerm_no_execute (perm : Z) :
  checkMqPerm perm = true <-> Forall (fun b => b = false) (executeBits perm).
Proof.
  unfold checkMqPerm, executeBits. rewrite Z.eqb_eq. split.
  - intro H.
    assert (Hb : forall i, 0 <= i < 64 -> Z.testbit 73 i = true ->
                           Z.testbit perm i = false).
    { intros i Hi H73.
      pose proof (f_equal (fun z => Z.testbit z i) H) as Hi'. cbv beta in Hi'.
      rewrite Z.land_spec, H73, Z.bits_0, andb_true_r in Hi'.
      rewrite Z.mod_pow2_bits_low in Hi' by lia. exact Hi'. }
    repeat constructor; apply Hb; try lia; reflexivity.
  - intro H.
    pose proof (Forall_inv H) as H0.
    pose proof (Forall_inv (Forall_inv_tail H)) as H3.
    pose proof (Forall_inv (Forall_inv_tail (Forall_inv_tail H))) as H6.
    cbv beta in H0, H3, H6.
    apply Z.bits_inj'. intros i Hi.
    rewrite Z.land_spec, Z.bits_0, testbit_73 by exact Hi.
    destruct (Z.eqb_spec i 0) as [-> | ?];
      [rewrite Z.mod_pow2_bits_low, H0 by lia; reflexivity |].
    destruct (Z.eqb_spec i 3) as [-> | ?];
      [rewrite Z.mod_pow2_bits_low, H3 by lia; reflexivity |].
    destruct (Z.eqb_spec i 6) as [-> | ?];
      [rewrite Z.mod_pow2_bits_low, H6 by lia; reflexivity |].
    apply andb_false_r.
Qed.

(** ** Layout validation *)

Lemma flat_array n e : flat (TArray n e) <-> flat e.
Proof.
  split; intros H u Hu.
  - apply H. apply occ_array. exact Hu.
  - inversion Hu; subst; [reflexivity | apply H; assumption].
Qed.

Lemma flat_struct fs : flat (TStruct fs) <-> Forall flat fs.
Proof.
  rewrite Forall_forall. split.
  - intros H f Hf u Hu. apply H. apply occ_struct with f; assumption.
  - intros H u Hu. inversion Hu; subst; [reflexivity |].
    apply (H f); assumption.
Qed.

Lemma firstError_none checks :
  firstError checks = None <-> Forall (fun c => c = None) checks.
Proof.
  induction checks as [| [e |] checks IH]; simpl.
  - split; [constructor | reflexivity].
  - split; [discriminate | intro H; inversion H; discriminate].
  - rewrite IH. split; [constructor; auto | intro H; inversion H; auto].
Qed.

Lemma firstError_some checks e :
  firstError checks = Some e -> In (Some e) checks.
Proof.
  induction checks as [| [e' |] checks IH]; simpl; intro H.
  - discriminate H.
  - left. exact H.
  - right. apply IH. exact H.
Qed.

(** Every rejection is [UnsupportedLayout]. *)
Lemma checkType_error t : forall depth e,
  checkType t depth = Some e -> e = UnsupportedLayout.
Proof.
  induction t as [k | n t IH | fs IH | name | t IH | t IH | | k _ v _ |];
    intros depth e; simpl; try congruence.
  - apply IH.
  - intro H. apply firstError_some in H. apply in_map_iff in H.
    destruct H as [f [Hf Hin]]. revert f Hf Hin.
    induction IH as [| f0 Hf0 fs _ IHfs]; intros f Hf Hin;
      [destruct Hin | destruct Hin as [<- | Hin]].
    + apply (Hf0 _ _ Hf).
    + apply (IHfs f Hf Hin).
  - destruct (whitelisted name); congruence.
  - destruct depth; [apply IH | congruence].
Qed.

(** Below the top level the validator accepts the flat types and no
    others. *)
Lemma checkType_nested t : forall depth,
  checkType t (S depth) = None <-> flat t.
Proof.
  induction t as [k | n t IH | fs IH | name | t IH | t IH | | k _ v _ |];
    intro depth; simpl.
  - split; [| reflexivity]. intros _ u Hu. inversion Hu. reflexivity.
  - rewrite flat_array. apply IH.
  - rewrite flat_struct, firstError_none, Forall_map.
    induction IH as [| f Hf fs _ IHfs].
    + split; constructor.
    + split; intro H; inversion H; subst; constructor;
        try (apply (Hf (S depth)); assumption); apply IHfs; assumption.
  - split.
    + intros H u Hu. inversion Hu; subst. simpl.
      destruct (whitelisted name); congruence.
    + intro H. specialize (H _ (occ_here _)). simpl in H. rewrite H.
      reflexivity.
  - split; [discriminate |]. intro H. discriminate (H _ (occ_here _)).
  - split; [discriminate |]. intro H. discriminate (H _ (occ_here _)).
  - split; [discriminate |]. intro H. discriminate (H _ (occ_here _)).
  - split; [discriminate |]. intro H. discriminate (H _ (occ_here _)).
  - split; [discriminate |]. intro H. discriminate (H _ (occ_here _)).
Qed.

(** At the top level a slice of a flat type is accepted as well. *)
Lemma checkObject_accepts t :
  checkObject t = None <-> flat t \/ exists e, t = TSlice e /\ flat e.
Proof.
  unfold checkObject. destruct t as [k | n t | fs | name | t | t | | k v |].
  - rewrite <- (checkType_nested (TNum k) 0). simpl.
    split; [left; reflexivity | reflexivity].
  - rewrite flat_array, <- (checkType_nested t 0). simpl.
    split; [auto | intros [H | [e [He _]]]; [exact H | discriminate He]].
  - assert (Hs : checkType (TStruct fs) 0 = None <-> flat (TStruct fs)).
    { simpl. rewrite flat_struct, firstError_none, Forall_map, !Forall_forall.
      split; intros H f Hf; apply (checkType_nested f 0), H, Hf. }
    rewrite Hs.
    split; [auto | intros [H | [e [He _]]]; [exact H | discriminate He]].
  - change (checkType (TOpaque name) 0) with (checkType (TOpaque name) 1).
    rewrite checkType_nested.
    split; [auto | intros [H | [e [He _]]]; [exact H | discriminate He]].
  - simpl. split; [discriminate |].
    intros [H | [e [He _]]];
      [discriminate (H _ (occ_here _)) | discriminate He].
  - simpl. rewrite (checkType_nested t 0). split.
    + intro H. right. exists t. auto.
    + intros [H | [e [He Hf]]].
      * discriminate (H _ (occ_here _)).
      * inversion He. subst. exact Hf.
  - simpl. split; [discriminate |].
    intros [H | [e [He _]]];
      [discriminate (H _ (occ_here _)) | discriminate He].
  - simpl. split; [discriminate |].
    intros [H | [e [He _]]];
      [discriminate (H _ (occ_here _)) | discriminate He].
  - simpl. split; [discriminate |].
    intros [H | [e [He _]]];
      [discriminate (H _ (occ_here _)) | discriminate He].
Qed.

Lemma checkObject_rejects t :
  checkObject t <> None -> checkObject t = Some UnsupportedLayout.
Proof.
  unfold checkObject. destruct (checkType t 0) as [e |] eqn:E.
  - intros _. f_equal. apply (checkType_error _ _ _ E).
  - congruence.
Qed.

Lemma occurs_trans u c t : occurs u c -> occurs c t -> occurs u t.
Proof.
  intros Hu Hc. induction Hc; eauto using occurs.
Qed.

Lemma component_occurs c t : component c t -> occurs c t.
Proof.
  destruct t; simpl; try contradiction.
  - intros ->. apply occ_array, occ_here.
  - intro H. apply occ_struct with c; [exact H | apply occ_here].
  - intros ->. apply occ_slice, occ_here.
Qed.

Lemma indirect_not_flat u : indirect u = true -> flatShape u = false.
Proof. destruct u; simpl; congruence. Qed.

(** The model answers the assertions of [TestCheckObjectType]. *)
Example TestCheckObjectType_model :
  checkObject tInt = None /\
  checkObject (TNum Complex128) = None /\
  checkObject (TArray 3 tInt) = None /\
  checkObject (TSlice tInt) = None /\
  checkObject validStruct = None /\
  checkObject invalidStruct1 <> None /\
  checkObject invalidStruct2 <> None /\
  checkObject invalidStruct3 <> None /\
  checkObject (TArray 3 TString) <> None /\
  checkObject (TSlice TString) <> None /\
  checkObject (TOpaque "sync.Mutex") = None /\
  checkObject (TMap tInt tInt) <> None /\
  checkObject (TSlice (TSlice tInt)) <> None.
Proof. repeat split; discriminate. Qed.

(** C5, amended. The validator accepts the flat types (numbers, arrays
    of flat types, structs of flat fields, opaque types on the list) and
    a slice of a flat type passed as the object itself, and nothing
    else: a pointer, text, a map or an interface at any depth is
    rejected, and so is a slice anywhere below the top level. *)
Theorem checkObject_flat_or_top_slice (t : GoType) :
  (checkObject t = None <-> flat t \/ exists e, t = TSlice e /\ flat e) /\
  (checkObject t <> None -> checkObject t = Some UnsupportedLayout) /\
  (forall u, occurs u t -> indirect u = true ->
     checkObject t = Some UnsupportedLayout) /\
  (forall c e, component c t -> occurs (TSlice e) c ->
     checkObject t = Some UnsupportedLayout) /\
  (forall k, checkObject (TNum k) = None) /\
  (forall n e, flat e -> checkObject (TArray n e) = None) /\
  (forall fs, Forall flat fs -> checkObject (TStruct fs) = None) /\
  checkObject (TOpaque "sync.Mutex") = None.
Proof.
  split; [apply checkObject_accepts |].
  split; [apply checkObject_rejects |].
  split; [| split].
  - intros u Hu Hi. apply checkObject_rejects. intro Hok.
    apply checkObject_accepts in Hok.
    pose proof (indirect_not_flat _ Hi) as Hnf.
    destruct Hok as [Hf | [e [-> Hf]]].
    + rewrite (Hf _ Hu) in Hnf. discriminate Hnf.
    + inversion Hu; subst.
      * discriminate Hi.
      * rewrite (Hf u) in Hnf by assumption. discriminate Hnf.
  - intros c e Hc Hs. apply checkObject_rejects. intro Hok.
    apply checkObject_accepts in Hok.
    destruct Hok as [Hf | [e0 [-> Hf]]].
    + assert (H : flatShape (TSlice e) = true).
      { apply Hf. apply occurs_trans with c;
          [exact Hs | apply component_occurs, Hc]. }
      discriminate H.
    + simpl in Hc. subst c. discriminate (Hf _ Hs).
  - repeat split.
    + intros n e Hf. apply checkObject_accepts. left.
      apply flat_array. exact Hf.
    + intros fs Hf. apply checkObject_accepts. left.
      apply flat_struct. exact Hf.
Qed.

(** C5, as stated, fails on a slice passed as the object itself: it
    contains a growable sequence and is accepted, as the test asserts
    for [arr[:]]. *)
Lemma checkObject_top_slice_counterexample :
  occurs (TSlice tInt) (TSlice tInt) /\
  flatShape (TSlice tInt) = false /\
  checkObject (TSlice tInt) = None /\
  ~ (checkObject (TSlice tInt) = None <-> flat (TSlice tInt)).
Proof.
  repeat split; try constructor.
  intros [H _]. discriminate (H eq_refl _ (occ_here _)).
Qed.

(** ** Raw transcoding *)

Lemma take_app (a rest : list byte) :
  take (List.length a) (a ++ rest) = Some (a, rest).
Proof.
  unfold take. rewrite length_app.
  destruct (Nat.leb_spec (List.length a) (List.length a + List.length rest))
    as [_ | H]; [| lia].
  rewrite firstn_app, Nat.sub_diag, firstn_all, firstn_O, app_nil_r.
  rewrite skipn_app, Nat.sub_diag, skipn_all, skipn_O. reflexivity.
Qed.

Lemma take_zeros n rest : take n (zeros n ++ rest) = Some (zeros n, rest).
Proof.
  pose proof (take_app (zeros n) rest) as H.
  unfold zeros in *. rewrite repeat_length in H. exact H.
Qed.

Lemma kind_bits k :
  0 < 2 ^ (8 * Z.of_nat (ksize k) - 1) /\
  2 ^ (Z.of_nat (ksize k) * 8) = 2 * 2 ^ (8 * Z.of_nat (ksize k) - 1).
Proof.
  assert (H : 0 <= 8 * Z.of_nat (ksize k) - 1) by (destruct k; simpl; lia).
  split.
  - apply Z.pow_pos_nonneg; lia.
  - replace (Z.of_nat (ksize k) * 8) with (Z.succ (8 * Z.of_nat (ksize k) - 1))
      by lia.
    apply Z.pow_succ_r. exact H.
Qed.

(** A number in the range of its kind is read back from its bytes. *)
Lemma interp_le_split k z :
  inRange k z -> interp k (le_combine (le_split (ksize k) z)) = z.
Proof.
  unfold inRange, interp. rewrite le_combine_split.
  destruct (kind_bits k) as [Hpos ->].
  set (half := 2 ^ (8 * Z.of_nat (ksize k) - 1)) in *.
  destruct (ksigned k); cbn [andb]; intro H.
  - destruct (Z.lt_ge_cases z 0) as [Hneg | Hnn].
    + assert (Hm : z mod (2 * half) = z + 2 * half).
      { rewrite <- (Z_mod_plus_full z 1 (2 * half)).
        rewrite Z.mul_1_l. apply Z.mod_small. lia. }
      rewrite Hm. destruct (Z.leb_spec half (z + 2 * half)); lia.
    + rewrite Z.mod_small by lia. destruct (Z.leb_spec half z); lia.
  - apply Z.mod_small. exact H.
Qed.

Lemma readMany_repr (rd : reader) (vs : list Value) : forall rest,
  Forall (fun v => forall r, rd (repr v ++ r) = Some (v, r)) vs ->
  readMany (List.length vs) rd (List.concat (map repr vs) ++ rest)
    = Some (vs, rest).
Proof.
  induction vs as [| v vs IH]; intros rest H; simpl.
  - reflexivity.
  - inversion H as [| ? ? Hv Hvs]; subst.
    rewrite <- app_assoc, Hv, (IH rest Hvs). reflexivity.
Qed.

Lemma readFields_repr a (vs : list Value) : forall off rest,
  Forall (fun v => forall r, decode (typeOf v) (repr v ++ r) = Some (v, r)) vs ->
  readFields a off
    (map (fun f => (alignof f, sizeof f, decode f)) (map typeOf vs))
    (placeFields a off
       (map (fun v => (alignof (typeOf v), sizeof (typeOf v), repr v)) vs)
     ++ rest)
  = Some (vs, rest).
Proof.
  induction vs as [| v vs IH]; intros off rest H; simpl.
  - rewrite take_zeros. reflexivity.
  - inversion H as [| ? ? Hv Hvs]; subst.
    rewrite <- app_assoc, take_zeros, <- app_assoc, Hv, (IH _ rest Hvs).
    reflexivity.
Qed.

Lemma placeFields_length a (fields : list (nat * nat * list byte)) : forall off,
  Forall (fun f => List.length (snd f) = snd (fst f)) fields ->
  (off + List.length (placeFields a off fields))%nat =
  layoutEnd a off (map fst fields).
Proof.
  induction fields as [| [[al sz] bs] fields IH]; intros off H; simpl.
  - unfold zeros. rewrite repeat_length. reflexivity.
  - inversion H as [| ? ? Hf Hfs]; subst. simpl in Hf.
    rewrite <- (IH _ Hfs). rewrite !length_app. unfold zeros.
    rewrite repeat_length, Hf. lia.
Qed.

Lemma allTrue_Forall {A} (P : A -> Prop) (l : list A) :
  allTrue (map P l) <-> Forall P l.
Proof.
  induction l as [| x l IH]; simpl.
  - split; constructor.
  - rewrite IH. split; [intros [? ?]; constructor; assumption |].
    intro H. inversion H. auto.
Qed.

Lemma list_all_Forall {A} (P : A -> Prop) (l : list A) :
  list_all A P l -> Forall P l.
Proof. induction 1; constructor; assumption. Qed.

(** The representation of a well-formed value has the size of its type. *)
Lemma repr_length (v : Value) : wf v -> List.length (repr v) = footprint v.
Proof.
  unfold footprint.
  induction v as [k z | elem vs IH | vs IH | name raw]; simpl; intro Hwf.
  - apply length_le_split.
  - apply allTrue_Forall in Hwf. apply list_all_Forall in IH.
    induction vs as [| v vs IHvs]; simpl; [reflexivity |].
    pose proof (Forall_inv Hwf) as [Hv Ht].
    pose proof (Forall_inv_tail Hwf) as Hvs.
    pose proof (Forall_inv IH) as Hl.
    pose proof (Forall_inv_tail IH) as Hls.
    rewrite length_app, (Hl Hv), Ht, IHvs by assumption. reflexivity.
  - apply allTrue_Forall in Hwf. apply list_all_Forall in IH.
    set (a := fold_right Nat.max 1%nat (map alignof (map typeOf vs))).
    pose proof (placeFields_length a
      (map (fun v => (alignof (typeOf v), sizeof (typeOf v), repr v)) vs) 0)
      as H.
    rewrite !map_map in *. simpl in H. rewrite <- H; [reflexivity |].
    apply Forall_map. simpl.
    rewrite Forall_forall in *. intros v Hv. apply IH; auto.
  - destruct (opaqueLayout name) as [[sz al] |]; [exact Hwf | contradiction].
Qed.

(** A well-formed value is read back from its representation, whatever
    follows it. *)
Lemma decode_repr (v : Value) :
  wf v -> forall rest, decode (typeOf v) (repr v ++ rest) = Some (v, rest).
Proof.
  induction v as [k z | elem vs IH | vs IH | name raw]; simpl; intros Hwf rest.
  - rewrite <- (length_le_split (ksize k) z) at 1.
    rewrite take_app, interp_le_split by exact Hwf. reflexivity.
  - apply allTrue_Forall in Hwf. apply list_all_Forall in IH.
    rewrite readMany_repr; [reflexivity |].
    rewrite Forall_forall in *. intros v Hv r.
    destruct (Hwf v Hv) as [Hw <-]. apply (IH v Hv Hw).
  - apply allTrue_Forall in Hwf. apply list_all_Forall in IH.
    rewrite readFields_repr; [reflexivity |].
    rewrite Forall_forall in *. intros v Hv r. apply (IH v Hv (Hwf v Hv)).
  - destruct (opaqueLayout name) as [[sz al] |]; [| contradiction].
    subst sz. rewrite take_app. reflexivity.
Qed.

(** A buffer shorter than the footprint is left as it is. *)
Lemma alloc_too_small (data : list byte) (v : Value) :
  checkObject (typeOf v) = None ->
  (List.length data < footprint v)%nat ->
  alloc data v = (data, Some BufferTooSmall).
Proof.
  intros Hok Hlen. unfold alloc. rewrite Hok.
  destruct (Nat.ltb_spec (List.length data) (footprint v)); [reflexivity | lia].
Qed.

(** A failed call does not touch the buffer. *)
Lemma alloc_error_untouched (data : list byte) (v : Value) :
  snd (alloc data v) <> None -> fst (alloc data v) = data.
Proof.
  unfold alloc. destruct (checkObject (typeOf v)); [reflexivity |].
  destruct (List.length data <? footprint v)%nat; [reflexivity |].
  simpl. congruence.
Qed.

(** C4. Writing a well-formed flat value that the validator accepts
    into a buffer of at least its footprint succeeds; the value is read
    back from the buffer; the first [footprint] bytes of the buffer are
    the representation of the value, and the rest of the buffer and its
    length are unchanged. *)
Theorem alloc_readFrom_roundtrip (v : Value) (data : list byte) :
  wf v ->
  checkObject (typeOf v) = None ->
  (footprint v <= List.length data)%nat ->
  snd (alloc data v) = None /\
  readFrom (fst (alloc data v)) (typeOf v) = Ok v /\
  firstn (footprint v) (fst (alloc data v)) = repr v /\
  List.length (repr v) = footprint v /\
  skipn (footprint v) (fst (alloc data v)) = skipn (footprint v) data /\
  List.length (fst (alloc data v)) = List.length data.
Proof.
  intros Hwf Hok Hlen.
  pose proof (repr_length v Hwf) as Hr.
  assert (Ha : alloc data v = (repr v ++ skipn (footprint v) data, None)).
  { unfold alloc. rewrite Hok.
    destruct (Nat.ltb_spec (List.length data) (footprint v)); [lia |].
    rewrite copy_short by lia. rewrite Hr. reflexivity. }
  rewrite Ha. simpl.
  assert (Hl : List.length (repr v ++ skipn (footprint v) data)
               = List.length data).
  { rewrite length_app, length_skipn, Hr. lia. }
  repeat split.
  - unfold readFrom. rewrite Hl. fold (footprint v).
    destruct (Nat.ltb_spec (List.length data) (footprint v)); [lia |].
    rewrite decode_repr by exact Hwf. reflexivity.
  - rewrite <- Hr at 1.
    rewrite firstn_app, Nat.sub_diag, firstn_all, firstn_O, app_nil_r.
    reflexivity.
  - exact Hr.
  - rewrite <- Hr at 1.
    rewrite skipn_app, Nat.sub_diag, skipn_all, skipn_O. reflexivity.
  - exact Hl.
Qed.

(** Sizes as the compiler lays them out: the object of the test takes
    40 bytes, a byte followed by an [int64] takes 16, and the bytes of
    the object start with those of -1. *)
Example layout_samples :
  footprint testStruct = 40%nat /\
  sizeof (TStruct [TNum Uint8; TNum Int64]) = 16%nat /\
  sizeof (TStruct [TNum Int64; TNum Uint8]) = 16%nat /\
  sizeof (TArray 3 (TStruct [TNum Uint16; TNum Uint8])) = 12%nat /\
  firstn 9 (repr testStruct) =
    [Byte.xff; Byte.xff; Byte.xff; Byte.xff; Byte.xff; Byte.xff; Byte.xff;
     Byte.xff; Byte.x0b].
Proof. repeat split. Qed.

Lemma alloc_readFrom_roundtrip_witness :
  snd (alloc (zeros 48) testStruct) = None /\
  readFrom (fst (alloc (zeros 48) testStruct)) (typeOf testStruct)
    = Ok testStruct /\
  firstn (footprint testStruct) (fst (alloc (zeros 48) testStruct))
    = repr testStruct /\
  List.length (repr testStruct) = footprint testStruct /\
  skipn (footprint testStruct) (fst (alloc (zeros 48) testStruct))
    = skipn (footprint testStruct) (zeros 48) /\
  List.length (fst (alloc (zeros 48) testStruct)) = List.length (zeros 48).
Proof.
  apply (alloc_readFrom_roundtrip testStruct (zeros 48)).
  - cbv. repeat split; discriminate.
  - reflexivity.
  - vm_compute. lia.
Defined.

(** ** Message-queue notification *)

(** The model answers the assertions of [TestMqNotifyTwice]. *)
Example TestMqNotifyTwice_model :
  let (q1, e1) := Notify 7 freshQueue in
  let (q2, e2) := Notify 7 q1 in
  let (q3, e3) := NotifyCancel q2 in
  let (q4, e4) := Notify 7 q3 in
  e1 = None /\ e2 <> None /\ e3 = None /\ e4 = None.
Proof. simpl. repeat split. discriminate. Qed.

(** C9. On a handle without subscriber [Notify] succeeds and registers
    the channel; a [Notify] that follows one fails with
    [AlreadySubscribed] and changes nothing; after [NotifyCancel] a
    [Notify] succeeds again; [NotifyCancel] succeeds on every handle, a
    second one as well, and leaves the handle without subscriber. *)
Theorem Notify_single_subscriber (mq : MessageQueue) (ch ch' : Z) :
  (subscriber mq = None ->
     Notify ch mq = ({| mqId := mqId mq; subscriber := Some ch |}, None)) /\
  Notify ch' (fst (Notify ch mq))
    = (fst (Notify ch mq), Some AlreadySubscribed) /\
  Notify ch' (fst (NotifyCancel mq))
    = ({| mqId := mqId mq; subscriber := Some ch' |}, None) /\
  NotifyCancel mq = ({| mqId := mqId mq; subscriber := None |}, None) /\
  NotifyCancel (fst (NotifyCancel mq)) = (fst (NotifyCancel mq), None).
Proof.
  repeat split.
  - intro H. unfold Notify. rewrite H. reflexivity.
  - unfold Notify. destruct (subscriber mq) eqn:E; simpl.
    + rewrite E. reflexivity.
    + reflexivity.
Qed.

(** * Further properties of the code *)

(** ** Open-mode negotiation *)

Section NegotiatorMore.
Context {F : OpenFlags} {OS : OsFlags}.

(** X1. The three errors of mode resolution, by the number of create flags
    and of access flags that are set; a fault in the create flags hides
    one in the access flags. *)
Theorem openModeToOsMode_errors (mode : Z) :
  let nc := countSet mode [O_CREATE_ONLY; O_OPEN_ONLY; O_OPEN_OR_CREATE] in
  let na := countSet mode [O_READ_ONLY; O_WRITE_ONLY; O_READWRITE] in
  (openModeToOsMode mode = Err (Errorf "no create mode flags") <->
     nc = 0%nat) /\
  (openModeToOsMode mode = Err (Errorf "incompatible open flags") <->
     (2 <= nc)%nat \/ (nc = 1%nat /\ (2 <= na)%nat)) /\
  (openModeToOsMode mode = Err (Errorf "no access mode flags") <->
     nc = 1%nat /\ na = 0%nat).
Proof.
  unfold openModeToOsMode, createModeToOsMode, accessModeToOsMode, countSet.
  rewrite !has_lor. simpl.
  destruct (has mode O_OPEN_OR_CREATE), (has mode O_CREATE_ONLY),
    (has mode O_OPEN_ONLY), (has mode O_READ_ONLY), (has mode O_WRITE_ONLY),
    (has mode O_READWRITE); simpl;
    (split; [| split]); split; intro H;
    try reflexivity; try discriminate H; try lia;
    try (left; lia); try (right; lia);
    try (destruct H as [H | [H1 H2]]; try discriminate; lia);
    try (destruct H as [H1 H2]; try discriminate; lia).
Qed.

(** A mode that mode resolution rejects is answered without the opener. *)
Lemma openOrCreateFile_invalid (mode : Z) :
  isOk (openModeToOsMode mode) = false ->
  exists e, forall World (opener : Z -> World -> option error * World) w,
    openOrCreateFile opener mode w = (false, Some e, w).
Proof.
  unfold openOrCreateFile, openModeToOsMode, createModeToOsMode.
  rewrite (has_lor mode O_OPEN_ONLY O_CREATE_ONLY).
  rewrite (has_lor mode O_CREATE_ONLY O_OPEN_ONLY).
  destruct (accessModeToOsMode mode) as [amode | ea];
    destruct (has mode O_OPEN_OR_CREATE), (has mode O_CREATE_ONLY),
      (has mode O_OPEN_ONLY); cbn [orb isOk]; intro H;
    try discriminate H; eexists; intros; reflexivity.
Qed.

Section CallsMore.
Context {World : Type}.
Variable opener : Z -> World -> option error * World.

Lemma retryLoop_log n amode last w :
  exists log1,
    snd (snd (retryLoop (logged opener) n amode last (w, []))) = log1 /\
    protocol amode n last log1
      (fst (fst (retryLoop (logged opener) n amode last (w, []))))
      (snd (fst (retryLoop (logged opener) n amode last (w, [])))).
Proof.
  destruct (retryLoop_logged opener n amode last w []) as [log1 [Heq Hp]].
  exists log1. rewrite Heq. simpl. split; [reflexivity | exact Hp].
Qed.

(** The calls of a run on a mode that mode resolution accepts: one call
    with the resolved flags when the mode carries [O_OPEN_ONLY] or
    [O_CREATE_ONLY], the calls of the protocol otherwise. *)
Lemma openOrCreateFile_valid (mode : Z) (w : World) :
  isOk (openModeToOsMode mode) = true ->
  exists amode, accessModeToOsMode mode = Ok amode /\
  ((exists osMode e,
      has mode (Z.lor O_OPEN_ONLY O_CREATE_ONLY) = true /\
      (osMode = amode \/
       osMode = Z.lor (Z.lor os_O_CREATE os_O_EXCL) amode) /\
      openModeToOsMode mode = Ok osMode /\
      fst (opener osMode w) = e /\
      openOrCreateFile (logged opener) mode (w, []) =
        (has mode O_CREATE_ONLY && isNil e, e,
         (snd (opener osMode w), [(osMode, e)]))) \/
   (exists log,
      has mode (Z.lor O_OPEN_ONLY O_CREATE_ONLY) = false /\
      snd (snd (openOrCreateFile (logged opener) mode (w, []))) = log /\
      protocol amode 16 None log
        (fst (fst (openOrCreateFile (logged opener) mode (w, []))))
        (snd (fst (openOrCreateFile (logged opener) mode (w, [])))))).
Proof.
  unfold openOrCreateFile, openModeToOsMode, createModeToOsMode.
  rewrite (has_lor mode O_OPEN_ONLY O_CREATE_ONLY).
  rewrite (has_lor mode O_CREATE_ONLY O_OPEN_ONLY).
  destruct (accessModeToOsMode mode) as [amode | ea] eqn:Ham.
  2:{ destruct (has mode O_OPEN_OR_CREATE), (has mode O_CREATE_ONLY),
        (has mode O_OPEN_ONLY); cbn [orb isOk]; discriminate. }
  exists amode. split; [reflexivity |].
  destruct (has mode O_OPEN_OR_CREATE) eqn:Hoc,
    (has mode O_CREATE_ONLY) eqn:Hc, (has mode O_OPEN_ONLY) eqn:Ho;
    cbn [orb isOk andb] in *; try discriminate.
  - right. destruct (retryLoop_log attempts amode None w) as [log [Hl Hp]].
    exists log. repeat split; assumption.
  - left. unfold logged. cbn [fst snd app].
    destruct (opener (Z.lor (Z.lor os_O_CREATE os_O_EXCL) amode) w)
      as [[e |] w1] eqn:E; eexists; eexists;
      (split; [reflexivity |]); (split; [right; reflexivity |]);
      (split; [reflexivity |]); rewrite E; split; reflexivity.
  - left. unfold logged. cbn [fst snd app].
    change (Z.lor 0 amode) with amode.
    destruct (opener amode w) as [[e |] w1] eqn:E; eexists; eexists;
      (split; [reflexivity |]); (split; [left; reflexivity |]);
      (split; [reflexivity |]); rewrite E; split; reflexivity.
Qed.

(** X2. The opener is called exactly on the modes that mode resolution
    accepts; on every other mode the call returns [false] and an error
    and leaves the world as it was. *)
Theorem openOrCreateFile_calls_iff_valid (mode : Z) (w : World) :
  (snd (snd (openOrCreateFile (logged opener) mode (w, []))) <> [] <->
   isOk (openModeToOsMode mode) = true) /\
  (isOk (openModeToOsMode mode) = false ->
   exists e,
     openOrCreateFile (logged opener) mode (w, []) = (false, Some e, (w, []))
     /\ openOrCreateFile opener mode w = (false, Some e, w)).
Proof.
  split.
  - destruct (isOk (openModeToOsMode mode)) eqn:Hv.
    + split; [reflexivity |]. intros _.
      destruct (openOrCreateFile_valid mode w Hv)
        as [amode [_ [[osMode [e [_ [_ [_ [_ Hrun]]]]]] | [log [_ [Hl Hp]]]]]].
      * rewrite Hrun. discriminate.
      * rewrite Hl. intro Hnil.
        destruct (protocol_calls _ _ _ _ _ _ Hp) as [_ [Hn _]].
        discriminate (Hn Hnil).
    + destruct (openOrCreateFile_invalid mode Hv) as [e He].
      rewrite He. simpl. split; [intro H; exfalso; apply H; reflexivity
                                | discriminate].
  - intro Hv. destruct (openOrCreateFile_invalid mode Hv) as [e He].
    exists e. rewrite !He. split; reflexivity.
Qed.

(** Under the protocol every call but the last one failed, and every
    call is a plain open or an exclusive creation with the access flag. *)
Lemma protocol_failures amode n last log b err :
  protocol amode n last log b err ->
  Forall (fun c : call => snd c <> None) (removelast log) /\
  Forall (fun c : call =>
            fst c = amode \/
            fst c = Z.lor amode (Z.lor os_O_CREATE os_O_EXCL)) log.
Proof.
  induction 1 as [last | n last e1 X1 | n last e1 e2 X1 X2
                 | n last e1 e2 log b e X1 X2 Hp IH].
  - split; constructor.
  - split; [constructor |].
    constructor; [right; symmetry; apply Z.lor_assoc | constructor].
  - split.
    + simpl. constructor; [| constructor].
      simpl. intro H. rewrite H in X1. discriminate X1.
    + constructor; [right; symmetry; apply Z.lor_assoc |].
      constructor; [left; reflexivity | constructor].
  - destruct IH as [IHf IHs]. split.
    + assert (H1 : snd (Z.lor (Z.lor amode os_O_CREATE) os_O_EXCL, e1)
                   <> None).
      { simpl. intro H. rewrite H in X1. discriminate X1. }
      assert (H2 : snd (amode, e2) <> None).
      { simpl. intro H. rewrite H in X2. discriminate X2. }
      destruct log as [| c log'].
      * simpl. constructor; [exact H1 | constructor].
      * change (removelast
                  ((Z.lor (Z.lor amode os_O_CREATE) os_O_EXCL, e1)
                     :: (amode, e2) :: c :: log'))
          with ((Z.lor (Z.lor amode os_O_CREATE) os_O_EXCL, e1)
                  :: (amode, e2) :: removelast (c :: log')).
        constructor; [exact H1 |]. constructor; [exact H2 | exact IHf].
    + constructor; [right; symmetry; apply Z.lor_assoc |].
      constructor; [left; reflexivity | exact IHs].
Qed.

(** X3. At most one call of the opener succeeds: a run stops at the first
    success, so that every call but the last one failed; the error that
    is returned is the error of the last call, and a run that made no
    call returns an error. *)
Theorem openOrCreateFile_one_success (mode : Z) (w : World) :
  let r := openOrCreateFile (logged opener) mode (w, []) in
  Forall (fun c : call => snd c <> None) (removelast (snd (snd r))) /\
  (snd (snd r) <> [] ->
     snd (fst r) = snd (List.last (snd (snd r)) (0, None))) /\
  (snd (snd r) = [] -> snd (fst r) <> None).
Proof.
  intro r. unfold r. clear r.
  destruct (isOk (openModeToOsMode mode)) eqn:Hv.
  - destruct (openOrCreateFile_valid mode w Hv)
      as [amode [_ [[osMode [e [_ [_ [_ [_ Hrun]]]]]] | [log [_ [Hl Hp]]]]]].
    + rewrite Hrun. simpl. repeat split; [constructor | discriminate].
    + rewrite Hl in *.
      destruct (protocol_calls _ _ _ _ _ _ Hp) as [_ [Hn [Hne _]]].
      destruct (protocol_failures _ _ _ _ _ _ Hp) as [Hf _].
      repeat split.
      * exact Hf.
      * intro H. apply (Hne H).
      * intro H. discriminate (Hn H).
  - destruct (openOrCreateFile_invalid mode Hv) as [e He].
    rewrite He. simpl. repeat split; [constructor | | discriminate].
    intro H. exfalso. apply H. reflexivity.
Qed.

(** X4. The opener is only asked for a plain open or for an exclusive
    creation, with the access flag of the mode; on a platform where
    neither carries [os.O_TRUNC], no call asks for truncation, although
    mode resolution maps [O_OPEN_OR_CREATE] to [O_CREATE|O_TRUNC]. *)
Theorem openOrCreateFile_never_truncates (mode : Z) (w : World) :
  (forall a, In a [os_O_RDONLY; os_O_WRONLY; os_O_RDWR] ->
     Z.land (Z.lor a (Z.lor os_O_CREATE os_O_EXCL)) os_O_TRUNC = 0) ->
  Forall (fun c : call =>
            (exists amode, accessModeToOsMode mode = Ok amode /\
               (fst c = amode \/
                fst c = Z.lor amode (Z.lor os_O_CREATE os_O_EXCL))) /\
            Z.land (fst c) os_O_TRUNC = 0)
    (snd (snd (openOrCreateFile (logged opener) mode (w, [])))).
Proof.
  intro Hapart.
  assert (Hshape : forall amode m,
            accessModeToOsMode mode = Ok amode ->
            m = amode \/ m = Z.lor amode (Z.lor os_O_CREATE os_O_EXCL) ->
            Z.land m os_O_TRUNC = 0).
  { intros amode m Ham Hm.
    assert (Hin : In amode [os_O_RDONLY; os_O_WRONLY; os_O_RDWR]).
    { revert Ham. unfold accessModeToOsMode.
      destruct (has mode O_READ_ONLY);
        [destruct (has mode (Z.lor O_WRITE_ONLY O_READWRITE)) |
         destruct (has mode O_WRITE_ONLY);
           [destruct (has mode O_READWRITE) | destruct (has mode O_READWRITE)]];
        intro H; inversion H; subst; simpl; rewrite ?Z.lor_0_l; auto. }
    specialize (Hapart _ Hin).
    destruct Hm as [-> | ->]; [| exact Hapart].
    rewrite Z.land_lor_distr_l in Hapart.
    apply Z.lor_eq_0_iff in Hapart. tauto. }
  destruct (isOk (openModeToOsMode mode)) eqn:Hv.
  - destruct (openOrCreateFile_valid mode w Hv)
      as [amode [Ham [[osMode [e [_ [Hos [_ [_ Hrun]]]]]] | [log [_ [Hl Hp]]]]]].
    + rewrite Hrun. simpl.
      assert (Hos' : osMode = amode \/
                     osMode = Z.lor amode (Z.lor os_O_CREATE os_O_EXCL)).
      { destruct Hos as [-> | ->]; [left; reflexivity |].
        right. apply Z.lor_comm. }
      constructor; [| constructor]. simpl. split; [eauto | eauto].
    + rewrite Hl.
      destruct (protocol_failures _ _ _ _ _ _ Hp) as [_ Hs].
      rewrite Forall_forall in *. intros c Hc.
      specialize (Hs c Hc). split; [eauto | eauto].
  - destruct (openOrCreateFile_invalid mode Hv) as [e He].
    rewrite He. simpl. constructor.
Qed.

End CallsMore.

Section QuietMore.
Context {World : Type}.
Variable present : World -> bool.
Variable opener : Z -> World -> option error * World.
Hypothesis Hquiet : quiet present opener.

Lemma retryLoop_S n amode last (w : World) :
  retryLoop opener (S n) amode last w =
  let (err1, w1) := opener (Z.lor (Z.lor amode os_O_CREATE) os_O_EXCL) w in
  if negb (os_IsExist err1) then (true, err1, w1)
  else
    let (err2, w2) := opener amode w1 in
    if negb (os_IsNotExist err2) then (false, err2, w2)
    else retryLoop opener n amode err2 w2.
Proof. reflexivity. Qed.

(** Without competitors the first round of the loop settles the call. *)
Lemma retryLoop_quiet n amode last (w : World) :
  createExcl amode = false ->
  snd (fst (retryLoop opener (S n) amode last w)) = None /\
  fst (fst (retryLoop opener (S n) amode last w)) = negb (present w) /\
  present (snd (retryLoop opener (S n) amode last w)) = true.
Proof.
  intro Hplain. rewrite retryLoop_S.
  pose proof (createExcl_request amode) as Hce.
  destruct (present w) eqn:Hw.
  - destruct (create_present _ _ Hquiet _ _ Hce Hw) as [Hx Hp1].
    destruct (opener (Z.lor (Z.lor amode os_O_CREATE) os_O_EXCL) w)
      as [e1 w1]. simpl in Hx, Hp1. rewrite Hx. simpl.
    destruct (open_present _ _ Hquiet _ _ Hplain Hp1) as [Ho Hp2].
    destruct (opener amode w1) as [e2 w2]. simpl in Ho, Hp2. subst e2.
    simpl. auto.
  - destruct (create_absent _ _ Hquiet _ _ Hce Hw) as [Hx Hp1].
    destruct (opener (Z.lor (Z.lor amode os_O_CREATE) os_O_EXCL) w)
      as [e1 w1]. simpl in Hx, Hp1. subst e1. simpl. auto.
Qed.

(** X5. Against an opener without competitors, a call with
    [O_OPEN_OR_CREATE] succeeds, leaves the object in place, and answers
    [true] exactly when the object was not there before; a second call
    then answers [false]: of two callers in a row only the first one is
    the creator. *)
Theorem openOrCreateFile_first_creator (mode amode : Z) (w : World) :
  access_plain ->
  has mode O_OPEN_OR_CREATE = true ->
  has mode (Z.lor O_OPEN_ONLY O_CREATE_ONLY) = false ->
  accessModeToOsMode mode = Ok amode ->
  let r := openOrCreateFile opener mode w in
  snd (fst r) = None /\
  fst (fst r) = negb (present w) /\
  present (snd r) = true /\
  fst (openOrCreateFile opener mode (snd r)) = (false, None).
Proof.
  intros Hplain Hoc Hno Ham r. unfold r. clear r.
  pose proof (accessModeToOsMode_plain _ _ Hplain Ham) as Hp.
  unfold openOrCreateFile. rewrite Hno, Hoc, Ham.
  change attempts with (S 15).
  destruct (retryLoop_quiet 15 amode None w Hp) as [He [Hb Hw]].
  remember (retryLoop opener 16 amode None w) as r1 eqn:E1.
  repeat split; try assumption.
  destruct (retryLoop_quiet 15 amode None (snd r1) Hp) as [He2 [Hb2 _]].
  rewrite Hw in Hb2.
  remember (retryLoop opener 16 amode None (snd r1)) as r2 eqn:E2.
  destruct r2 as [[b2 e2] w2]. cbn [fst snd negb] in *. congruence.
Qed.

(** X6. Against an opener without competitors, a call with [O_CREATE_ONLY]
    succeeds with [true] when the object is not there and fails with
    "exists" when it is; a call with [O_OPEN_ONLY] succeeds with [false]
    when the object is there and fails with "does not exist" when it is
    not; a failed call returns [false]. *)
Theorem openOrCreateFile_exclusive_modes (mode : Z) (w : World) :
  access_plain ->
  isOk (openModeToOsMode mode) = true ->
  has mode (Z.lor O_OPEN_ONLY O_CREATE_ONLY) = true ->
  let r := openOrCreateFile opener mode w in
  (has mode O_CREATE_ONLY = true ->
     if present w
     then fst (fst r) = false /\ os_IsExist (snd (fst r)) = true
     else fst r = (true, None) /\ present (snd r) = true) /\
  (has mode O_CREATE_ONLY = false ->
     if present w
     then fst r = (false, None) /\ present (snd r) = true
     else fst (fst r) = false /\ os_IsNotExist (snd (fst r)) = true) /\
  (snd (fst r) <> None -> fst (fst r) = false).
Proof.
  intros Hplain Hv Hex r. unfold r. clear r.
  revert Hv. unfold openOrCreateFile, openModeToOsMode, createModeToOsMode.
  rewrite Hex. rewrite has_lor in Hex.
  rewrite (has_lor mode O_CREATE_ONLY O_OPEN_ONLY).
  destruct (accessModeToOsMode mode) as [amode | ea] eqn:Ham.
  2:{ destruct (has mode O_OPEN_OR_CREATE), (has mode O_CREATE_ONLY),
        (has mode O_OPEN_ONLY); cbn [orb isOk]; discriminate. }
  pose proof (accessModeToOsMode_plain _ _ Hplain Ham) as Hp.
  destruct (has mode O_OPEN_OR_CREATE), (has mode O_CREATE_ONLY) eqn:Hc,
    (has mode O_OPEN_ONLY) eqn:Ho; cbn [orb isOk] in *;
    try discriminate; intros _.
  - pose proof (createExcl_lor_l amode) as Hce.
    split; [intros _ | split; [discriminate |]].
    + destruct (present w) eqn:Hw.
      * destruct (create_present _ _ Hquiet _ _ Hce Hw) as [Hx _].
        destruct (opener (Z.lor (Z.lor os_O_CREATE os_O_EXCL) amode) w)
          as [[e |] w1]; simpl in *; [auto | discriminate Hx].
      * destruct (create_absent _ _ Hquiet _ _ Hce Hw) as [Hx Hp1].
        destruct (opener (Z.lor (Z.lor os_O_CREATE os_O_EXCL) amode) w)
          as [[e |] w1]; simpl in *; [discriminate Hx | auto].
    + destruct (opener (Z.lor (Z.lor os_O_CREATE os_O_EXCL) amode) w)
        as [[e |] w1]; simpl; [reflexivity | congruence].
  - change (Z.lor 0 amode) with amode.
    split; [discriminate | split; [intros _ |]].
    + destruct (present w) eqn:Hw.
      * destruct (open_present _ _ Hquiet _ _ Hp Hw) as [Hx Hp1].
        destruct (opener amode w) as [[e |] w1]; simpl in *;
          [discriminate Hx | auto].
      * destruct (open_absent _ _ Hquiet _ _ Hp Hw) as [Hx _].
        destruct (opener amode w) as [[e |] w1]; simpl in *;
          [auto | discriminate Hx].
    + destruct (opener amode w) as [[e |] w1]; simpl;
        [reflexivity | congruence].
Qed.

End QuietMore.
End NegotiatorMore.

Lemma fsOpener_quiet : quiet (OS := linux_flags) (fun b : bool => b) fsOpener.
Proof.
  constructor; intros m w Hm Hw; unfold fsOpener; rewrite Hm; subst w;
    split; reflexivity.
Qed.

Lemma openOrCreateFile_never_truncates_witness :
  Forall (fun c : call =>
            (exists amode,
               accessModeToOsMode (F := bit_flags) (OS := linux_flags) 33
                 = Ok amode /\
               (fst c = amode \/ fst c = Z.lor amode (Z.lor 64 128))) /\
            Z.land (fst c) 512 = 0)
    (snd (snd (openOrCreateFile (F := bit_flags) (OS := linux_flags)
                 (logged existingOpener) 33 (tt, [])))).
Proof.
  apply (openOrCreateFile_never_truncates (F := bit_flags)
           (OS := linux_flags) existingOpener 33 tt).
  intros a Ha. simpl in Ha.
  destruct Ha as [<- | [<- | [<- | []]]]; reflexivity.
Defined.

Lemma openOrCreateFile_first_creator_witness :
  snd (fst (openOrCreateFile (F := bit_flags) (OS := linux_flags)
              fsOpener 33 false)) = None /\
  fst (fst (openOrCreateFile (F := bit_flags) (OS := linux_flags)
              fsOpener 33 false)) = negb false /\
  snd (openOrCreateFile (F := bit_flags) (OS := linux_flags)
         fsOpener 33 false) = true /\
  fst (openOrCreateFile (F := bit_flags) (OS := linux_flags) fsOpener 33
         (snd (openOrCreateFile (F := bit_flags) (OS := linux_flags)
                 fsOpener 33 false))) = (false, None).
Proof.
  apply (openOrCreateFile_first_creator (F := bit_flags) (OS := linux_flags)
           (fun b : bool => b) fsOpener fsOpener_quiet 33 2 false).
  - repeat split.
  - reflexivity.
  - reflexivity.
  - reflexivity.
Defined.

Lemma openOrCreateFile_exclusive_modes_witness :
  (has 34 (O_CREATE_ONLY (OpenFlags := bit_flags)) = true ->
     fst (fst (openOrCreateFile (F := bit_flags) (OS := linux_flags)
                 fsOpener 34 true)) = false /\
     os_IsExist (snd (fst (openOrCreateFile (F := bit_flags)
                             (OS := linux_flags) fsOpener 34 true))) = true) /\
  (has 34 (O_CREATE_ONLY (OpenFlags := bit_flags)) = false ->
     fst (openOrCreateFile (F := bit_flags) (OS := linux_flags)
            fsOpener 34 true) = (false, None) /\
     snd (openOrCreateFile (F := bit_flags) (OS := linux_flags)
            fsOpener 34 true) = true) /\
  (snd (fst (openOrCreateFile (F := bit_flags) (OS := linux_flags)
               fsOpener 34 true)) <> None ->
   fst (fst (openOrCreateFile (F := bit_flags) (OS := linux_flags)
               fsOpener 34 true)) = false).
Proof.
  apply (openOrCreateFile_exclusive_modes (F := bit_flags)
           (OS := linux_flags) (fun b : bool => b) fsOpener fsOpener_quiet
           34 true).
  - repeat split.
  - reflexivity.
  - reflexivity.
Defined.

(** ** Memory regions *)

(** X8. For every offset, negative ones too, the fixup is the remainder of
    the truncated division by the granularity: it has the sign of the
    offset and is smaller than the granularity in absolute value; the
    offset less the fixup is a multiple of the granularity and has a
    zero fixup itself. *)
Theorem calcMmapOffsetFixup_any {P : Platform} (offset : Z) :
  0 < mmapOffsetMultiple < 2 ^ 63 ->
  - 2 ^ 63 <= offset < 2 ^ 63 ->
  let fixup := Z.rem offset mmapOffsetMultiple in
  calcMmapOffsetFixup offset = Some fixup /\
  (offset - fixup) mod mmapOffsetMultiple = 0 /\
  Z.abs fixup < mmapOffsetMultiple /\
  (0 <= offset -> 0 <= fixup) /\
  (offset <= 0 -> fixup <= 0) /\
  calcMmapOffsetFixup (offset - fixup) = Some 0.
Proof.
  intros Hps Hoff. set (ps := mmapOffsetMultiple) in *. intro fixup.
  assert (He : offset = ps * Z.quot offset ps + fixup)
    by (apply Z.quot_rem'; lia).
  assert (Hsign : (0 <= offset -> 0 <= fixup < ps /\ 0 <= Z.quot offset ps) /\
                  (offset <= 0 -> - ps < fixup <= 0 /\ Z.quot offset ps <= 0)).
  { split; intro H.
    - split; [apply Z.rem_bound_pos; lia | apply Z.quot_pos; lia].
    - split.
      + assert (Hr : Z.rem (- - offset) ps = - Z.rem (- offset) ps)
          by (apply Z.rem_opp_l; lia).
        rewrite Z.opp_involutive in Hr. unfold fixup. rewrite Hr.
        assert (0 <= Z.rem (- offset) ps < ps)
          by (apply Z.rem_bound_pos; lia).
        lia.
      + assert (Ho : Z.quot (- - offset) ps = - Z.quot (- offset) ps)
        by (apply Z.quot_opp_l; lia).
        rewrite Z.opp_involutive in Ho. rewrite Ho.
        assert (0 <= Z.quot (- offset) ps) by (apply Z.quot_pos; lia). lia. }
  destruct Hsign as [Hpos Hneg].
  assert (Hq : - 2 ^ 63 <= Z.quot offset ps * ps < 2 ^ 63 /\
               - 2 ^ 63 <= Z.quot offset ps < 2 ^ 63 /\
               Z.abs fixup < ps).
  { destruct (Z.le_ge_cases 0 offset) as [H | H].
    - destruct (Hpos H) as [Hf Hquot]. nia.
    - destruct (Hneg H) as [Hf Hquot]. nia. }
  destruct Hq as [Hprod [Hquot Habs]].
  assert (Hcalc : calcMmapOffsetFixup offset = Some fixup).
  { unfold calcMmapOffsetFixup. fold ps.
    destruct (Z.eqb_spec ps 0) as [E | _]; [lia |].
    rewrite (int64_small (Z.quot offset ps)) by lia.
    rewrite (int64_small (Z.quot offset ps * ps)) by lia.
    rewrite int64_small by lia. f_equal. lia. }
  split; [exact Hcalc |].
  split.
  { replace (offset - fixup) with (Z.quot offset ps * ps) by lia.
    apply Z_mod_mult. }
  split; [exact Habs |].
  split; [intro H; apply Hpos; exact H |].
  split; [intro H; apply Hneg; exact H |].
  unfold calcMmapOffsetFixup. fold ps.
  destruct (Z.eqb_spec ps 0) as [E | _]; [lia |].
  replace (offset - fixup) with (Z.quot offset ps * ps) by lia.
  rewrite Z.quot_mul by lia.
  rewrite (int64_small (Z.quot offset ps)) by lia.
  rewrite (int64_small (Z.quot offset ps * ps)) by lia.
  rewrite Z.sub_diag. reflexivity.
Qed.

Lemma calcMmapOffsetFixup_any_witness :
  calcMmapOffsetFixup (P := linuxPlatform) (-5000) = Some (-904) /\
  (-5000 - -904) mod 4096 = 0 /\
  Z.abs (-904) < 4096 /\
  (0 <= -5000 -> 0 <= -904) /\
  (-5000 <= 0 -> -904 <= 0) /\
  calcMmapOffsetFixup (P := linuxPlatform) (-5000 - -904) = Some 0.
Proof.
  apply (calcMmapOffsetFixup_any (P := linuxPlatform) (-5000)); simpl; lia.
Defined.

(** X9. [fileSizeFromFd] fails exactly when the handle is valid and [Stat]
    fails; an invalid handle is answered with size 0 without asking
    [Stat], and so is an object without [Stat]; every other answer is
    the size [Stat] gave. *)
Theorem fileSizeFromFd_cases (f : Mappable) :
  (isOk (fileSizeFromFd f) = false <->
   Fd f <> invalidFd /\ exists e, Stat f = Some (Err e)) /\
  (Fd f = invalidFd -> fileSizeFromFd f = Ok 0) /\
  (Stat f = None -> fileSizeFromFd f = Ok 0) /\
  (forall sz, fileSizeFromFd f = Ok sz ->
     sz = 0 \/ (Fd f <> invalidFd /\ Stat f = Some (Ok sz))).
Proof.
  unfold fileSizeFromFd.
  destruct (Z.eqb_spec (Fd f) invalidFd) as [Hf | Hf];
    destruct (Stat f) as [[sz | e] |]; cbn [isOk];
    (split; [| split; [| split]]);
    try (split; [discriminate | intros [? [? ?]]; congruence]);
    try (split; [intros _; split; eauto | reflexivity]);
    try (intros; reflexivity); try (intros; congruence);
    try (intros sz' H; inversion H; subst; auto).
Qed.

Lemma copy_length {A} (dst src : list A) :
  List.length (copy dst src) = List.length dst.
Proof.
  unfold copy. rewrite length_app, length_firstn, length_skipn. lia.
Qed.

(** Within the region, [WriteAt] overwrites with the longest prefix of
    [p] that fits. *)
Lemma WriteAt_within (data p : list byte) (off : Z) :
  len data < 2 ^ 63 ->
  0 <= off <= len data ->
  WriteAt data p off =
    Some (Z.min (len p) (len data - off),
          (if Z.min (len p) (len data - off) <? len p
           then Some EOF else None),
          overwrite data (Z.to_nat off)
            (firstn (Z.to_nat (Z.min (len p) (len data - off))) p)).
Proof.
  intros HL Hoff. set (n := Z.min (len p) (len data - off)).
  pose proof (len_nonneg p) as Hp.
  assert (Hn : 0 <= n <= len data - off) by (unfold n; lia).
  assert (Hnp : n <= len p) by (unfold n; lia).
  assert (Hmid : List.length (firstn (Z.to_nat n) p) = Z.to_nat n).
  { rewrite length_firstn. unfold len in *. lia. }
  unfold WriteAt, overwrite.
  rewrite (int64_small off) by lia.
  rewrite (int64_small (len data - off)) by lia.
  destruct (Z.ltb_spec 0 (len data - off)) as [Hpos | Hzero].
  - replace (if len p <? len data - off then len p else len data - off)
      with n by (unfold n; destruct (Z.ltb_spec (len p) (len data - off)); lia).
    unfold slice_from, slice_to.
    replace ((0 <=? off) && (off <=? len data)) with true
      by (symmetry; apply andb_true_iff; split; apply Z.leb_le; lia).
    replace ((0 <=? n) && (n <=? len p)) with true
      by (symmetry; apply andb_true_iff; split; apply Z.leb_le; lia).
    rewrite copy_short
      by (rewrite Hmid, length_skipn; unfold len in *; lia).
    rewrite Hmid, skipn_skipn.
    replace (Z.to_nat n + Z.to_nat off)%nat
      with (Z.to_nat off + Z.to_nat n)%nat by lia.
    reflexivity.
  - assert (off = len data) by lia. assert (H0 : n = 0) by lia.
    rewrite H0. subst off. simpl.
    unfold len. rewrite Nat2Z.id, firstn_all, Nat.add_0_r, skipn_all.
    rewrite !app_nil_r.
    replace (Z.of_nat (List.length data) - Z.of_nat (List.length data))
      with 0 by lia.
    reflexivity.
Qed.

Lemma overwrite_length data o src :
  (o + List.length src <= List.length data)%nat ->
  List.length (overwrite data o src) = List.length data.
Proof.
  intro H. unfold overwrite.
  rewrite !length_app, length_firstn, length_skipn. lia.
Qed.

Lemma firstn_overwrite data o src :
  (o <= List.length data)%nat -> firstn o (overwrite data o src) = firstn o data.
Proof.
  intro H. unfold overwrite.
  rewrite firstn_app, length_firstn, Nat.min_l by exact H.
  rewrite Nat.sub_diag, firstn_O, app_nil_r.
  rewrite firstn_firstn, Nat.min_id. reflexivity.
Qed.

Lemma skipn_overwrite data o src k :
  (o + List.length src <= List.length data)%nat ->
  (o + List.length src <= k)%nat ->
  skipn k (overwrite data o src) = skipn k data.
Proof.
  intros H Hk. unfold overwrite.
  rewrite skipn_app, length_firstn, Nat.min_l by lia.
  rewrite (skipn_all2 (firstn o data)) by (rewrite length_firstn; lia).
  rewrite skipn_app.
  rewrite (skipn_all2 src) by lia.
  rewrite skipn_skipn. simpl. f_equal. lia.
Qed.

Lemma skipn_firstn_overwrite data o src :
  (o + List.length src <= List.length data)%nat ->
  firstn (o + List.length src) (overwrite data o src) = firstn o data ++ src.
Proof.
  intro H. unfold overwrite. rewrite app_assoc.
  rewrite firstn_app.
  rewrite length_app, length_firstn, Nat.min_l by lia.
  rewrite Nat.sub_diag, firstn_O, app_nil_r.
  apply firstn_all2. rewrite length_app, length_firstn. lia.
Qed.

(** A later piece that is at least as long hides an earlier one at the
    same offset. *)
Lemma overwrite_twice data o s1 s2 :
  (o + List.length s2 <= List.length data)%nat ->
  (List.length s1 <= List.length s2)%nat ->
  overwrite (overwrite data o s1) o s2 = overwrite data o s2.
Proof.
  intros H2 H12. unfold overwrite at 1.
  rewrite firstn_overwrite by lia.
  rewrite skipn_overwrite by lia. reflexivity.
Qed.

(** Two pieces placed one after the other are their concatenation. *)
Lemma overwrite_app data o s1 s2 :
  (o + List.length s1 + List.length s2 <= List.length data)%nat ->
  overwrite (overwrite data o s1) (o + List.length s1) s2
  = overwrite data o (s1 ++ s2).
Proof.
  intro H. unfold overwrite at 1.
  rewrite skipn_firstn_overwrite by lia.
  rewrite skipn_overwrite by lia.
  unfold overwrite. rewrite length_app, <- !app_assoc.
  do 3 f_equal. f_equal. lia.
Qed.

Lemma WriteAt_beyond_witness :
  WriteAt [Byte.x00; Byte.x00] [Byte.x01] 5 =
    Some (len [Byte.x00; Byte.x00] - 5, Some EOF, [Byte.x00; Byte.x00]).
Proof.
  apply (WriteAt_beyond [Byte.x00; Byte.x00] [Byte.x01] 5).
  unfold len. simpl. lia.
Defined.

Lemma WriteAt_negative_witness :
  WriteAt [Byte.x00; Byte.x00] [] (-3) = None.
Proof.
  apply (WriteAt_negative [Byte.x00; Byte.x00] [] (-3));
    unfold len; simpl; lia.
Defined.

(** X12. Whenever [WriteAt] returns, the region has the length it had, the
    count is at most [len(p)], the error is [io.EOF] exactly when the
    count is smaller than [len(p)] and nil exactly when it is
    [len(p)], and a count that is not positive means that the region is
    untouched. *)
Theorem WriteAt_keeps_length (data p : list byte) (off n : Z)
    (err : option error) (data' : list byte) :
  WriteAt data p off = Some (n, err, data') ->
  len data' = len data /\
  n <= len p /\
  (err = Some EOF <-> n < len p) /\
  (err = None <-> n = len p) /\
  (n <= 0 -> data' = data).
Proof.
  unfold WriteAt. set (n0 := int64 (len data - int64 off)).
  pose proof (len_nonneg p) as Hp.
  assert (Heof : forall m, m <= len p ->
            ((if m <? len p then Some EOF else None) = Some EOF <-> m < len p)
            /\ ((if m <? len p then Some EOF else @None error) = None
                <-> m = len p)).
  { intros m Hm. destruct (Z.ltb_spec m (len p)); split; split;
      intro H'; try reflexivity; try discriminate H'; lia. }
  destruct (Z.ltb_spec 0 n0) as [Hpos | Hnpos].
  - set (m := if len p <? n0 then len p else n0).
    assert (Hm : 0 <= m <= len p /\ (m <= 0 -> p = []))
      by (unfold m; destruct (Z.ltb_spec (len p) n0); split; try lia;
          intro; destruct p; [reflexivity | unfold len in *; simpl in *; lia]).
    unfold slice_from, slice_to.
    destruct ((0 <=? off) && (off <=? len data)) eqn:Eo; [| discriminate].
    destruct ((0 <=? m) && (m <=? len p)) eqn:Em; [| discriminate].
    apply andb_true_iff in Eo. destruct Eo as [Eo1 Eo2].
    apply Z.leb_le in Eo1, Eo2.
    intro H. inversion H. subst n err data'. clear H.
    destruct (Heof m) as [He1 He2]; [lia |].
    repeat split; try apply He1; try apply He2; try lia.
    + unfold len in *. rewrite length_app, copy_length, length_firstn,
        length_skipn. lia.
    + intro Hle. destruct Hm as [_ Hnil]. rewrite (Hnil Hle).
      rewrite firstn_nil. unfold copy. simpl. rewrite Nat.min_0_r. simpl.
      apply firstn_skipn.
  - intro H. inversion H. subst n err data'. clear H.
    destruct (Heof n0) as [He1 He2]; [lia |].
    repeat split; try apply He1; try apply He2; try lia.
Qed.

Lemma WriteAt_keeps_length_witness :
  len [Byte.x00; Byte.x00; Byte.x01; Byte.x02]
    = len [Byte.x00; Byte.x00; Byte.x00; Byte.x00] /\
  2 <= len [Byte.x01; Byte.x02; Byte.x03] /\
  (Some EOF = Some EOF <-> 2 < len [Byte.x01; Byte.x02; Byte.x03]) /\
  (Some EOF = None <-> 2 = len [Byte.x01; Byte.x02; Byte.x03]) /\
  (2 <= 0 -> [Byte.x00; Byte.x00; Byte.x01; Byte.x02]
             = [Byte.x00; Byte.x00; Byte.x00; Byte.x00]).
Proof.
  apply (WriteAt_keeps_length [Byte.x00; Byte.x00; Byte.x00; Byte.x00]
           [Byte.x01; Byte.x02; Byte.x03] 2 2 (Some EOF)).
  reflexivity.
Defined.

Lemma firstn_len {A} (l : list A) : firstn (Z.to_nat (len l)) l = l.
Proof. unfold len. rewrite Nat2Z.id. apply firstn_all. Qed.

(** X13. A write that fits, followed by a write right behind it, is the one
    write of the two pieces together: the region, the error and the sum
    of the counts are the same. *)
Theorem WriteAt_chunks (data p1 p2 : list byte) (off : Z) :
  len data < 2 ^ 63 ->
  0 <= off ->
  off + len p1 <= len data ->
  exists data1 n2 e d,
    WriteAt data p1 off = Some (len p1, None, data1) /\
    WriteAt data1 p2 (off + len p1) = Some (n2, e, d) /\
    WriteAt data (p1 ++ p2) off = Some (len p1 + n2, e, d).
Proof.
  intros HL Hoff Hfit.
  pose proof (len_nonneg p1) as Hp1. pose proof (len_nonneg p2) as Hp2.
  set (o := Z.to_nat off).
  set (n2 := Z.min (len p2) (len data - (off + len p1))).
  assert (Hlen1 : len (overwrite data o p1) = len data).
  { unfold len. f_equal. apply overwrite_length. unfold o, len in *. lia. }
  exists (overwrite data o p1), n2,
    (if n2 <? len p2 then Some EOF else None),
    (overwrite (overwrite data o p1) (o + List.length p1)
       (firstn (Z.to_nat n2) p2)).
  split; [| split].
  - rewrite WriteAt_within by lia.
    rewrite Z.min_l by lia. rewrite Z.ltb_irrefl, firstn_len. reflexivity.
  - rewrite WriteAt_within by lia.
    rewrite Hlen1. fold n2.
    replace (Z.to_nat (off + len p1)) with (o + List.length p1)%nat
      by (unfold o, len; lia).
    reflexivity.
  - rewrite WriteAt_within by lia.
    rewrite len_app.
    replace (Z.min (len p1 + len p2) (len data - off)) with (len p1 + n2)
      by (unfold n2; lia).
    replace (len p1 + n2 <? len p1 + len p2) with (n2 <? len p2)
      by (destruct (Z.ltb_spec n2 (len p2));
          destruct (Z.ltb_spec (len p1 + n2) (len p1 + len p2)); lia).
    fold o.
    replace (Z.to_nat (len p1 + n2))
      with (List.length p1 + Z.to_nat n2)%nat by (unfold len, n2; lia).
    rewrite firstn_app_2.
    rewrite overwrite_app; [reflexivity |].
    rewrite length_firstn. unfold o, n2, len in *. lia.
Qed.

Lemma WriteAt_chunks_witness :
  exists data1 n2 e d,
    WriteAt [Byte.x00; Byte.x00; Byte.x00; Byte.x00] [Byte.x01; Byte.x02] 1
      = Some (len [Byte.x01; Byte.x02], None, data1) /\
    WriteAt data1 [Byte.x03; Byte.x04] (1 + len [Byte.x01; Byte.x02])
      = Some (n2, e, d) /\
    WriteAt [Byte.x00; Byte.x00; Byte.x00; Byte.x00]
      ([Byte.x01; Byte.x02] ++ [Byte.x03; Byte.x04]) 1
      = Some (len [Byte.x01; Byte.x02] + n2, e, d).
Proof.
  apply (WriteAt_chunks [Byte.x00; Byte.x00; Byte.x00; Byte.x00]
           [Byte.x01; Byte.x02] [Byte.x03; Byte.x04] 1);
    unfold len; simpl; lia.
Defined.

(** X14. A second write at the same offset with a piece that is at least as
    long hides the first one: the outcome is that of the second write
    alone. *)
Theorem WriteAt_last_wins (data p1 p2 : list byte) (off : Z) :
  len data < 2 ^ 63 ->
  0 <= off <= len data ->
  len p1 <= len p2 ->
  exists n1 e1 data1,
    WriteAt data p1 off = Some (n1, e1, data1) /\
    WriteAt data1 p2 off = WriteAt data p2 off.
Proof.
  intros HL Hoff H12.
  pose proof (len_nonneg p1) as Hp1.
  set (o := Z.to_nat off).
  set (n1 := Z.min (len p1) (len data - off)).
  set (n2 := Z.min (len p2) (len data - off)).
  assert (Hl1 : List.length (firstn (Z.to_nat n1) p1) = Z.to_nat n1).
  { rewrite length_firstn. unfold n1, len in *. lia. }
  assert (Hl2 : List.length (firstn (Z.to_nat n2) p2) = Z.to_nat n2).
  { rewrite length_firstn. unfold n2, len in *. lia. }
  assert (Hlen1 : len (overwrite data o (firstn (Z.to_nat n1) p1)) = len data).
  { unfold len. f_equal. apply overwrite_length.
    rewrite Hl1. unfold o, n1, len in *. lia. }
  exists n1, (if n1 <? len p1 then Some EOF else None),
    (overwrite data o (firstn (Z.to_nat n1) p1)).
  split; [apply WriteAt_within; lia |].
  rewrite !WriteAt_within by lia.
  rewrite Hlen1. fold n2. fold o.
  rewrite overwrite_twice; [reflexivity | |].
  - rewrite Hl2. unfold o, n2, len in *. lia.
  - rewrite Hl1, Hl2. unfold n1, n2. lia.
Qed.

Lemma WriteAt_last_wins_witness :
  exists n1 e1 data1,
    WriteAt [Byte.x00; Byte.x00; Byte.x00] [Byte.x01] 1
      = Some (n1, e1, data1) /\
    WriteAt data1 [Byte.x02; Byte.x03; Byte.x04] 1
      = WriteAt [Byte.x00; Byte.x00; Byte.x00]
          [Byte.x02; Byte.x03; Byte.x04] 1.
Proof.
  apply (WriteAt_last_wins [Byte.x00; Byte.x00; Byte.x00] [Byte.x01]
           [Byte.x02; Byte.x03; Byte.x04] 1);
    unfold len; simpl; lia.
Defined.

(** ** Message-queue permissions *)

(** X15. A union of permission masks is accepted exactly when both masks
    are, and every mask is accepted once it is cut down to the read and
    write bits [0666]. *)
Theorem checkMqPerm_union (p q : Z) :
  checkMqPerm (Z.lor p q) = checkMqPerm p && checkMqPerm q /\
  checkMqPerm (Z.land p 438) = true.
Proof.
  unfold checkMqPerm. rewrite <- !Z.land_ones by lia. split.
  - replace (Z.land (Z.land (Z.lor p q) (Z.ones 64)) 73)
      with (Z.lor (Z.land (Z.land p (Z.ones 64)) 73)
                  (Z.land (Z.land q (Z.ones 64)) 73)).
    + destruct (Z.eqb_spec (Z.land (Z.land p (Z.ones 64)) 73) 0) as [Hp | Hp];
        destruct (Z.eqb_spec (Z.land (Z.land q (Z.ones 64)) 73) 0)
          as [Hq | Hq]; simpl; [apply Z.eqb_eq | apply Z.eqb_neq ..];
        rewrite Z.lor_eq_0_iff; tauto.
    + apply Z.bits_inj'. intros i Hi.
      rewrite !Z.lor_spec, !Z.land_spec, !Z.lor_spec.
      destruct (Z.testbit p i), (Z.testbit q i), (Z.testbit (Z.ones 64) i),
        (Z.testbit 73 i); reflexivity.
  - apply Z.eqb_eq. apply Z.bits_inj'. intros i Hi.
    rewrite !Z.land_spec, Z.bits_0.
    assert (H : Z.testbit 438 i && Z.testbit 73 i = false).
    { rewrite <- Z.land_spec. change (Z.land 438 73) with 0.
      apply Z.bits_0. }
    destruct (Z.testbit p i), (Z.testbit 438 i), (Z.testbit 73 i),
      (Z.testbit (Z.ones 64) i); simpl in *; congruence.
Qed.

(** ** The boolean of a failed call *)

Section BooleanOnError.
Context {F : OpenFlags} {OS : OsFlags} {World : Type}.
Variable opener : Z -> World -> option error * World.

(** Under the protocol the answer [true] comes from an exclusive
    creation, the last call, whose error is not "exists". *)
Lemma protocol_true amode n last log err :
  protocol amode n last log true err ->
  os_IsExist err = false /\
  fst (List.last log (0, None)) = Z.lor (Z.lor amode os_O_CREATE) os_O_EXCL.
Proof.
  intro Hp. remember true as b eqn:Hb.
  induction Hp as [last | n last e1 X1 | n last e1 e2 X1 X2
                  | n last e1 e2 log b e X1 X2 Hp IH].
  - discriminate Hb.
  - split; [exact X1 | reflexivity].
  - discriminate Hb.
  - destruct (IH Hb) as [Hx Hl]. split; [exact Hx |].
    destruct log as [| c log']; [| exact Hl].
    subst b. inversion Hp.
Qed.

(** X7. [openOrCreateFile] returns [true] together with an error only in
    the create-or-open case, when the last call, an exclusive creation,
    failed for another reason than "exists"; with [O_OPEN_ONLY] or
    [O_CREATE_ONLY] a failed call returns [false]. *)
Theorem openOrCreateFile_true_on_error (mode : Z) (w : World) :
  fst (fst (openOrCreateFile (logged opener) mode (w, []))) = true ->
  snd (fst (openOrCreateFile (logged opener) mode (w, []))) <> None ->
  has mode O_OPEN_OR_CREATE = true /\
  has mode (Z.lor O_OPEN_ONLY O_CREATE_ONLY) = false /\
  os_IsExist (snd (fst (openOrCreateFile (logged opener) mode (w, []))))
    = false /\
  createExcl
    (fst (List.last
            (snd (snd (openOrCreateFile (logged opener) mode (w, []))))
            (0, None))) = true.
Proof.
  destruct (isOk (openModeToOsMode mode)) eqn:Hv.
  - destruct (openOrCreateFile_valid opener mode w Hv)
      as [amode [_ [[osMode [e [_ [_ [_ [_ Hrun]]]]]] | [log [Hno [Hl Hp]]]]]].
    + rewrite Hrun. cbn [fst snd]. intros Hb He.
      apply andb_true_iff in Hb. destruct Hb as [_ Hb].
      destruct e; [discriminate Hb | exfalso; apply He; reflexivity].
    + intros Hb _. rewrite Hb in Hp. rewrite Hl.
      destruct (protocol_true _ _ _ _ _ Hp) as [Hx Hlast].
      assert (Hoc : has mode O_OPEN_OR_CREATE = true).
      { revert Hv. unfold openModeToOsMode, createModeToOsMode.
        rewrite has_lor in Hno. apply orb_false_iff in Hno.
        destruct Hno as [Ho Hc]. rewrite Hc, Ho.
        destruct (has mode O_OPEN_OR_CREATE); [reflexivity | discriminate]. }
      repeat split; try assumption.
      rewrite Hlast. apply createExcl_request.
  - destruct (openOrCreateFile_invalid mode Hv) as [e He].
    rewrite He. cbn [fst]. discriminate.
Qed.

End BooleanOnError.

Lemma openOrCreateFile_true_on_error_witness :
  has 33 (O_OPEN_OR_CREATE (OpenFlags := bit_flags)) = true /\
  has 33 (Z.lor (O_OPEN_ONLY (OpenFlags := bit_flags))
                (O_CREATE_ONLY (OpenFlags := bit_flags))) = false /\
  os_IsExist
    (snd (fst (openOrCreateFile (F := bit_flags) (OS := linux_flags)
                 (logged deniedOpener) 33 (tt, [])))) = false /\
  createExcl (OS := linux_flags)
    (fst (List.last
            (snd (snd (openOrCreateFile (F := bit_flags) (OS := linux_flags)
                         (logged deniedOpener) 33 (tt, []))))
            (0, None))) = true.
Proof.
  apply (openOrCreateFile_true_on_error (F := bit_flags) (OS := linux_flags)
           deniedOpener 33 tt).
  - reflexivity.
  - vm_compute. intro H. discriminate H.
Defined.

(** ** Bits that are no flag *)

Section OtherBits.
Context {F : OpenFlags} {OS : OsFlags}.

Lemma has_other_bits mode extra f :
  Z.land extra f = 0 -> has (Z.lor mode extra) f = has mode f.
Proof.
  intro H. unfold has. rewrite Z.land_lor_distr_l, H, Z.lor_0_r. reflexivity.
Qed.

(** X16. Bits of the mode that belong to none of the six flags are
    ignored: mode resolution and [openOrCreateFile] answer for
    [mode|extra] what they answer for [mode]. *)
Theorem openOrCreateFile_ignores_other_bits {World : Type}
    (opener : Z -> World -> option error * World) (mode extra : Z) (w : World) :
  (forall f, In f [O_OPEN_OR_CREATE; O_CREATE_ONLY; O_OPEN_ONLY;
                   O_READ_ONLY; O_WRITE_ONLY; O_READWRITE] ->
     Z.land extra f = 0) ->
  openModeToOsMode (Z.lor mode extra) = openModeToOsMode mode /\
  openOrCreateFile opener (Z.lor mode extra) w = openOrCreateFile opener mode w.
Proof.
  intro H.
  assert (H1 : has (Z.lor mode extra) O_OPEN_OR_CREATE
               = has mode O_OPEN_OR_CREATE)
    by (apply has_other_bits, H; simpl; auto).
  assert (H2 : has (Z.lor mode extra) O_CREATE_ONLY = has mode O_CREATE_ONLY)
    by (apply has_other_bits, H; simpl; auto).
  assert (H3 : has (Z.lor mode extra) O_OPEN_ONLY = has mode O_OPEN_ONLY)
    by (apply has_other_bits, H; simpl; auto).
  assert (H4 : has (Z.lor mode extra) O_READ_ONLY = has mode O_READ_ONLY)
    by (apply has_other_bits, H; simpl; auto).
  assert (H5 : has (Z.lor mode extra) O_WRITE_ONLY = has mode O_WRITE_ONLY)
    by (apply has_other_bits, H; simpl; auto 10).
  assert (H6 : has (Z.lor mode extra) O_READWRITE = has mode O_READWRITE)
    by (apply has_other_bits, H; simpl; auto 10).
  assert (Ha : accessModeToOsMode (Z.lor mode extra) = accessModeToOsMode mode).
  { unfold accessModeToOsMode. rewrite !has_lor, H4, H5, H6. reflexivity. }
  assert (Hc : createModeToOsMode (Z.lor mode extra) = createModeToOsMode mode).
  { unfold createModeToOsMode. rewrite !has_lor, H1, H2, H3. reflexivity. }
  assert (Ho : openModeToOsMode (Z.lor mode extra) = openModeToOsMode mode).
  { unfold openModeToOsMode. rewrite Ha, Hc. reflexivity. }
  split; [exact Ho |].
  unfold openOrCreateFile. rewrite !has_lor, H1, H2, H3, Ha, Ho.
  reflexivity.
Qed.

End OtherBits.

Lemma openOrCreateFile_ignores_other_bits_witness :
  openModeToOsMode (F := bit_flags) (OS := linux_flags) (Z.lor 33 64)
    = openModeToOsMode (F := bit_flags) (OS := linux_flags) 33 /\
  openOrCreateFile (F := bit_flags) (OS := linux_flags) fsOpener
    (Z.lor 33 64) false
    = openOrCreateFile (F := bit_flags) (OS := linux_flags) fsOpener 33 false.
Proof.
  apply (openOrCreateFile_ignores_other_bits (F := bit_flags)
           (OS := linux_flags) fsOpener 33 64 false).
  intros f Hf. simpl in Hf.
  destruct Hf as [<- | [<- | [<- | [<- | [<- | [<- | []]]]]]]; reflexivity.
Defined.

(** ** The boolean and the creation *)

Section BooleanAndCreation.
Context {F : OpenFlags} {OS : OsFlags} {World : Type}.
Variable opener : Z -> World -> option error * World.

(** Under the protocol a run that answers [false] created nothing. *)
Lemma protocol_false amode n last log b err :
  protocol amode n last log b err ->
  b = false ->
  createExcl amode = false ->
  created log = false.
Proof.
  intros Hp.
  induction Hp as [last | n last e1 X1 | n last e1 e2 X1 X2
                  | n last e1 e2 log b e X1 X2 Hp IH]; intros Hb Hplain.
  - reflexivity.
  - discriminate Hb.
  - unfold created. simpl. rewrite Hplain.
    destruct e1; [| discriminate X1]. simpl.
    rewrite andb_false_r. reflexivity.
  - specialize (IH Hb Hplain). unfold created in *. simpl. rewrite Hplain.
    destruct e1; [| discriminate X1]. simpl.
    rewrite andb_false_r. simpl. exact IH.
Qed.

(** X17. Whenever [openOrCreateFile] answers [false], with or without
    an error, none of its exclusive creations succeeded: a call that
    created the object never denies it. *)
Theorem openOrCreateFile_false_created_nothing (mode : Z) (w : World) :
  access_plain ->
  fst (fst (openOrCreateFile (logged opener) mode (w, []))) = false ->
  created (snd (snd (openOrCreateFile (logged opener) mode (w, [])))) = false.
Proof.
  intros Hplain.
  destruct (isOk (openModeToOsMode mode)) eqn:Hv.
  - destruct (openOrCreateFile_valid opener mode w Hv)
      as [amode [Ham [[osMode [e [Hex [Hos [Hres [_ Hrun]]]]]]
                      | [log [_ [Hl Hp]]]]]].
    + rewrite Hrun. cbn [fst snd]. intro Hb.
      unfold created. simpl. rewrite orb_false_r.
      apply andb_false_iff in Hb. destruct Hb as [Hc | He].
      * destruct Hos as [-> | ->].
        -- rewrite (accessModeToOsMode_plain _ _ Hplain Ham). reflexivity.
        -- exfalso. revert Hres Hc.
           unfold openModeToOsMode, createModeToOsMode. rewrite Ham.
           rewrite (has_lor mode O_CREATE_ONLY O_OPEN_ONLY).
           rewrite has_lor in Hex.
           destruct (has mode O_OPEN_OR_CREATE), (has mode O_CREATE_ONLY),
             (has mode O_OPEN_ONLY); cbn [orb] in *; try discriminate.
           intros Hres _. inversion Hres as [Heq].
           change (Z.lor 0 amode) with amode in Heq.
           pose proof (createExcl_lor_l amode) as Hce.
           rewrite <- Heq in Hce.
           rewrite (accessModeToOsMode_plain _ _ Hplain Ham) in Hce.
           discriminate Hce.
      * rewrite He. apply andb_false_r.
    + intro Hb. rewrite Hl.
      apply (protocol_false _ _ _ _ _ _ Hp Hb).
      exact (accessModeToOsMode_plain _ _ Hplain Ham).
  - destruct (openOrCreateFile_invalid mode Hv) as [e He].
    rewrite He. reflexivity.
Qed.

End BooleanAndCreation.

Lemma openOrCreateFile_false_created_nothing_witness :
  created (OS := linux_flags)
    (snd (snd (openOrCreateFile (F := bit_flags) (OS := linux_flags)
                 (logged deniedOpener) 34 (tt, [])))) = false.
Proof.
  apply (openOrCreateFile_false_created_nothing (F := bit_flags)
           (OS := linux_flags) deniedOpener 34 tt).
  - repeat split.
  - reflexivity.
Defined.
